(** * Benchmark harnesses of cem3: a shallow embedding and its properties

    The Python reference implementations under [benchmarks/] are embedded
    as follows.

    - Python integers are unbounded: they are [Z].  [range n] is
      [seqZ 0 n] (empty when [n <= 0]), [//] on a positive divisor is
      [Z.div], and an f-string of an integer is [pretty].
    - [fibonacci/python.py] is sequential.  Its functions are Rocq
      functions; [bench] and [main] live in a small state monad over the
      lines printed so far and the readings of the monotonic clock.  The
      benchmarked function is a function of its argument there;
      [bench_repeated_io] takes one with effects of its own.
    - [skynet/python.py] spawns ten tasks per node and gathers them in
      task order; the tasks share nothing, so the coroutine is a function
      of its arguments.  It does not return on every [size]: the
      embedding carries the depth of the task tree as fuel.
    - [pingpong/python.py] and [fanout/python.py] are cooperating
      coroutines over [asyncio.Queue]s.  Each is a transition system whose
      steps are the stretches of code between two [await]s, driven by a
      schedule (the list of tasks picked, one step each); a task that
      waits on an empty queue, or that has returned, cannot be picked.
      Every schedule is allowed, which covers the asyncio event loop and
      any preemptive scheduler with the same channels.
    - [primes/python.py] and [collections/python.py] are sequential.
      [int(math.sqrt(n))] goes through floating point: it is a parameter
      of [is_prime], and the statements say what they need of it. *)

From stdpp Require Import base tactics option list list_numbers strings pretty.
From Stdlib Require Import ZArith Lia Znumtheory.
From Equations Require Import Equations.

#[local] Open Scope Z_scope.

(** ** Shared helpers *)

(** Python's built-in [sum] on a list of integers. *)
Definition sum (l : list Z) : Z := foldr Z.add 0 l.

(** * Fibonacci: [benchmarks/fibonacci/python.py] *)

Module Fibonacci.

(** ** The two implementations *)

Equations fib_naive (n : Z) : Z by wf (Z.to_nat n) lt :=
  fib_naive n with Z_lt_dec n 2 := {
    | left _ => n
    | right _ => fib_naive (n - 1) + fib_naive (n - 2) }.
Next Obligation. lia. Qed.
Next Obligation. lia. Qed.

(** One turn of the loop body [a, b = b, a + b]. *)
Definition fib_step (ab : Z * Z) : Z * Z := (ab.2, ab.1 + ab.2).

Definition fib_fast (n : Z) : Z :=
  if decide (n < 2) then n
  else (foldl (λ ab _, fib_step ab) (0, 1) (seqZ 0 (n - 1))).2.

(** ** Timing and printing *)

(** What a run has done so far: how many times it has read the clock and
    the lines it has printed. *)
Record world := World { reads : nat; out : list string }.

Definition io (A : Type) : Type := world → A * world.

Definition ret {A} (a : A) : io A := λ w, (a, w).
Definition bind {A B} (m : io A) (k : A → io B) : io B :=
  λ w, let (a, w') := m w in k a w'.

Declare Scope io_scope.
Notation "x ← m ; k" := (bind m (λ x, k))
  (at level 20, m at level 100, k at level 200, only parsing) : io_scope.
Notation "m ;; k" := (bind m (λ _, k))
  (at level 100, k at level 200, right associativity) : io_scope.
Delimit Scope io_scope with io.
Bind Scope io_scope with io.

Definition exec {A} (m : io A) (w : world) : world := (m w).2.

Section Bench.

(** [perf_counter k] is the [k]-th reading of [time.perf_counter_ns] in
    the run.  Nothing is assumed about it. *)
Variable perf_counter : nat → Z.

Definition perf_counter_ns : io Z :=
  λ w, (perf_counter (reads w), World (S (reads w)) (out w)).

Definition print (line : string) : io unit :=
  λ w, (tt, World (reads w) (out w ++ [line])).

Definition bench_line (name : string) (result elapsed_ms : Z) : string :=
  "BENCH:fibonacci:" +:+ name +:+ ":" +:+ pretty result +:+ ":" +:+ pretty elapsed_ms.

Definition error_line (expected result : Z) : string :=
  "ERROR: expected " +:+ pretty expected +:+ ", got " +:+ pretty result.

Definition bench (name : string) (n expected : Z) (func : Z → Z) : io unit :=
  (start ← perf_counter_ns;
   let result := func n in
   stop ← perf_counter_ns;
   let elapsed_ms := (stop - start) / 1000000 in
   print (bench_line name result elapsed_ms);;
   if decide (result ≠ expected)
   then print (error_line expected result)
   else ret tt)%io.

Definition bench_repeated (name : string) (n iterations expected : Z)
    (func : Z → Z) : io unit :=
  (start ← perf_counter_ns;
   let result := foldl (λ _ _, func n) 0 (seqZ 0 iterations) in
   stop ← perf_counter_ns;
   let elapsed_ms := (stop - start) / 1000000 in
   print (bench_line name result elapsed_ms);;
   if decide (result ≠ expected)
   then print (error_line expected result)
   else ret tt)%io.

(** [main], with the two module-level functions it looks up by name as
    arguments. *)
Definition main_with (naive fast : Z → Z) : io unit :=
  (bench "fib-naive-30" 30 832040 naive;;
   bench "fib-naive-35" 35 9227465 naive;;
   bench "fib-fast-30" 30 832040 fast;;
   bench "fib-fast-50" 50 12586269025 fast;;
   bench "fib-fast-70" 70 190392490709135 fast;;
   bench_repeated "fib-naive-20-x1000" 20 1000 6765 naive;;
   bench_repeated "fib-fast-20-x1000" 20 1000 6765 fast)%io.

Definition main : io unit := main_with fib_naive fib_fast.

(** The lines of one sub-test: its [BENCH:] line, then the diagnostic when
    the result is not the expected one. *)
Definition report (name : string) (result expected elapsed_ms : Z) : list string :=
  bench_line name result elapsed_ms ::
  (if decide (result = expected) then [] else [error_line expected result]).

(** Elapsed milliseconds between the [k]-th and the next reading. *)
Definition elapsed (k : nat) : Z :=
  (perf_counter (S k) - perf_counter k) / 1000000.

End Bench.

(** The calls [fib_naive n] makes, itself included: the same recursion,
    counting one for each call. *)
Equations fib_naive_calls (n : Z) : Z by wf (Z.to_nat n) lt :=
  fib_naive_calls n with Z_lt_dec n 2 := {
    | left _ => 1
    | right _ => 1 + fib_naive_calls (n - 1) + fib_naive_calls (n - 2) }.
Next Obligation. lia. Qed.
Next Obligation. lia. Qed.

(** ** A function with effects *)

(** The loop of [bench_repeated] for a [func] that may itself print or
    read the clock: [result] starts as given and every turn runs [func(n)]
    and keeps what it returns. *)
Fixpoint repeat_calls (func : Z → io Z) (n : Z) (turns : list Z) (result : Z) : io Z :=
  match turns with
  | [] => ret result
  | _ :: turns => (result ← func n; repeat_calls func n turns result)%io
  end.

(** [bench_repeated] over such a [func]. *)
Definition bench_repeated_io (perf_counter : nat → Z) (name : string)
    (n iterations expected : Z) (func : Z → io Z) : io unit :=
  (start ← perf_counter_ns perf_counter;
   result ← repeat_calls func n (seqZ 0 iterations) 0;
   stop ← perf_counter_ns perf_counter;
   let elapsed_ms := (stop - start) / 1000000 in
   print (bench_line name result elapsed_ms);;
   if decide (result ≠ expected)
   then print (error_line expected result)
   else ret tt)%io.

(** A function that logs each of its calls. *)
Definition logged (f : Z → Z) (n : Z) : io Z :=
  (print ("call " +:+ pretty n);; ret (f n))%io.

End Fibonacci.

(** * Skynet: [benchmarks/skynet/python.py] *)

Module Skynet.

(** [skynet fuel num size] is the value the coroutine [skynet(num, size)]
    returns when its task tree is at most [fuel] levels deep, and [None]
    when the tree is deeper.  The ten children are created in the order of
    [range(10)] and [asyncio.gather] returns their results in that
    order. *)
Fixpoint skynet (fuel : nat) (num size : Z) : option Z :=
  match fuel with
  | O => None
  | S fuel =>
      if decide (size = 1) then Some num
      else
        let child_size := size / 10 in
        results ← mapM (λ i, skynet fuel (num + i * child_size) child_size)
                       (seqZ 0 10);
        Some (sum results)
  end.

(** The same recursion, instrumented: the values returned by the leaf
    tasks (the calls with [size == 1]), in task order. *)
Fixpoint leaves (fuel : nat) (num size : Z) : option (list Z) :=
  match fuel with
  | O => None
  | S fuel =>
      if decide (size = 1) then Some [num]
      else
        let child_size := size / 10 in
        results ← mapM (λ i, leaves fuel (num + i * child_size) child_size)
                       (seqZ 0 10);
        Some (concat results)
  end.

(** [S * (S - 1) / 2], the sum of [0 .. S-1]. *)
Definition triangle (S : Z) : Z := S * (S - 1) / 2.

(** [size // 10 + size // 100 + ...], [k] terms. *)
Fixpoint shifts (k : nat) (size : Z) : Z :=
  match k with
  | O => 0
  | S k => size / 10 + shifts k (size / 10)
  end.

End Skynet.

(** * PingPong: [benchmarks/pingpong/python.py] *)

Module PingPong.

(** The two tasks of the event loop: the coroutine [main], which runs
    [ping] inline, and the task created for [pong]. *)
Inductive task := Main | Pong.

(** Where [main] stands.  [PingPut i] is the head of turn [i] of the loop
    of [ping], [PingGet i] its [await pong_queue.get()]. *)
Inductive main_pc :=
  | MStart
  | PingPut (i : Z)
  | PingGet (i : Z)
  | MAwait
  | MDone.

(** Where the task of [pong] stands: not created yet, at the head of turn
    [j] of its loop, holding [val] before [pong_queue.put(val)], or
    returned. *)
Inductive pong_pc :=
  | PongNew
  | PongGet (j : Z)
  | PongPut (j : Z) (val : Z)
  | PongDone.

#[global] Instance pp_task_eq_dec : EqDecision task.
Proof. solve_decision. Defined.
#[global] Instance pp_main_pc_eq_dec : EqDecision main_pc.
Proof. solve_decision. Defined.
#[global] Instance pong_pc_eq_dec : EqDecision pong_pc.
Proof. solve_decision. Defined.

(** The two queues and the two program counters, with three logs kept for
    the statements: the values [ping] has put, the values [pong] has got,
    and the values [ping] has got back (and dropped), each in order. *)
Record state := State {
  ping_queue : list Z;
  pong_queue : list Z;
  main : main_pc;
  pong : pong_pc;
  sent : list Z;
  received : list Z;
  echoes : list Z
}.

Definition init : state := State [] [] MStart PongNew [] [] [].

Section Run.

(** [ITERATIONS], the [count] both coroutines are called with. *)
Variable count : Z.

Definition step_main (s : state) : option state :=
  match main s with
  | MStart =>
      (* start = perf_counter_ns(); pong_task = create_task(pong(...));
         enter ping(...) *)
      Some (State (ping_queue s) (pong_queue s) (PingPut 0) (PongGet 0)
                  (sent s) (received s) (echoes s))
  | PingPut i =>
      if decide (i < count) then
        (* await ping_queue.put(i) *)
        Some (State (ping_queue s ++ [i]) (pong_queue s) (PingGet i) (pong s)
                    (sent s ++ [i]) (received s) (echoes s))
      else
        (* the loop is over: await pong_task *)
        Some (State (ping_queue s) (pong_queue s) MAwait (pong s)
                    (sent s) (received s) (echoes s))
  | PingGet i =>
      (* await pong_queue.get() *)
      match pong_queue s with
      | [] => None
      | v :: q =>
          Some (State (ping_queue s) q (PingPut (i + 1)) (pong s)
                      (sent s) (received s) (echoes s ++ [v]))
      end
  | MAwait =>
      match pong s with
      | PongDone =>
          (* elapsed; print *)
          Some (State (ping_queue s) (pong_queue s) MDone (pong s)
                      (sent s) (received s) (echoes s))
      | _ => None
      end
  | MDone => None
  end.

Definition step_pong (s : state) : option state :=
  match pong s with
  | PongNew => None
  | PongGet j =>
      if decide (j < count) then
        (* val = await ping_queue.get() *)
        match ping_queue s with
        | [] => None
        | v :: q =>
            Some (State q (pong_queue s) (main s) (PongPut j v)
                        (sent s) (received s ++ [v]) (echoes s))
        end
      else
        Some (State (ping_queue s) (pong_queue s) (main s) PongDone
                    (sent s) (received s) (echoes s))
  | PongPut j v =>
      (* await pong_queue.put(val) *)
      Some (State (ping_queue s) (pong_queue s ++ [v]) (main s) (PongGet (j + 1))
                  (sent s) (received s) (echoes s))
  | PongDone => None
  end.

Definition step (t : task) (s : state) : option state :=
  match t with
  | Main => step_main s
  | Pong => step_pong s
  end.

(** Run a schedule: the tasks picked, one step each.  [None] when a task
    is picked that cannot move. *)
Fixpoint run (sched : list task) (s : state) : option state :=
  match sched with
  | [] => Some s
  | t :: sched => s' ← step t s; run sched s'
  end.

(** Values put on either queue and not taken out yet, and the value [pong]
    holds between its [get] and its [put]. *)
Definition held (s : state) : nat :=
  match pong s with PongPut _ _ => 1%nat | _ => 0%nat end.

Definition in_flight (s : state) : nat :=
  (length (ping_queue s) + length (pong_queue s) + held s)%nat.

(** The reachable states, one shape for every pair of program counters. *)
Inductive inv : state → Prop :=
  | inv_start :
      inv (State [] [] MStart PongNew [] [] [])
  | inv_put i :
      0 ≤ i ≤ Z.max 0 count →
      inv (State [] [] (PingPut i) (PongGet i)
                 (seqZ 0 i) (seqZ 0 i) (seqZ 0 i))
  | inv_put_last i :
      i = Z.max 0 count →
      inv (State [] [] (PingPut i) PongDone
                 (seqZ 0 i) (seqZ 0 i) (seqZ 0 i))
  | inv_sent i :
      0 ≤ i < count →
      inv (State [i] [] (PingGet i) (PongGet i)
                 (seqZ 0 (i + 1)) (seqZ 0 i) (seqZ 0 i))
  | inv_held i :
      0 ≤ i < count →
      inv (State [] [] (PingGet i) (PongPut i i)
                 (seqZ 0 (i + 1)) (seqZ 0 (i + 1)) (seqZ 0 i))
  | inv_echoed i :
      0 ≤ i < count →
      inv (State [] [i] (PingGet i) (PongGet (i + 1))
                 (seqZ 0 (i + 1)) (seqZ 0 (i + 1)) (seqZ 0 i))
  | inv_echoed_last i :
      0 ≤ i < count → ¬ i + 1 < count →
      inv (State [] [i] (PingGet i) PongDone
                 (seqZ 0 (i + 1)) (seqZ 0 (i + 1)) (seqZ 0 i))
  | inv_await i :
      i = Z.max 0 count →
      inv (State [] [] MAwait (PongGet i)
                 (seqZ 0 i) (seqZ 0 i) (seqZ 0 i))
  | inv_await_last i :
      i = Z.max 0 count →
      inv (State [] [] MAwait PongDone
                 (seqZ 0 i) (seqZ 0 i) (seqZ 0 i))
  | inv_done i :
      i = Z.max 0 count →
      inv (State [] [] MDone PongDone
                 (seqZ 0 i) (seqZ 0 i) (seqZ 0 i)).

(** Steps left, an upper bound that every step lowers. *)
Definition main_left (pc : main_pc) : Z :=
  match pc with
  | MStart => 2 * Z.max 0 count + 3
  | PingPut i => 2 * Z.max 0 (count - i) + 2
  | PingGet i => 2 * Z.max 0 (count - i) + 1
  | MAwait => 1
  | MDone => 0
  end.

Definition pong_left (pc : pong_pc) : Z :=
  match pc with
  | PongNew => 2 * Z.max 0 count + 2
  | PongGet j => 2 * Z.max 0 (count - j) + 1
  | PongPut j _ => 2 * Z.max 0 (count - j)
  | PongDone => 0
  end.

Definition steps_left (s : state) : Z := main_left (main s) + pong_left (pong s).

End Run.

(** ** Sample runs *)

(** One full run with two round trips. *)
Definition two_rounds : list task :=
  [Main; Main; Pong; Pong; Main; Main; Pong; Pong; Main; Main; Pong; Main].

(** A run stopped while [pong] holds the first value. *)
Definition first_held : state :=
  State [] [] (PingGet 0) (PongPut 0 0) [0] [0] [].

End PingPong.

(** * Fanout: [benchmarks/fanout/python.py] *)

Module Fanout.

(** The tasks of the event loop: the coroutine [main], which runs
    [producer] inline, and the worker tasks, numbered in creation order. *)
Inductive task := Main | Worker (w : nat).

(** Where a worker stands, with its private [count]: at
    [await work_queue.get()], at [await done_queue.put(count)] after a
    sentinel, at [await asyncio.sleep(0)] after a message, or returned. *)
Inductive worker_pc :=
  | AtGet (count : Z)
  | AtPut (count : Z)
  | AtSleep (count : Z)
  | Exited.

(** Where [main] stands: turn [k] of the comprehension that creates the
    workers (followed by the reading of the clock), turn [i] of the loop
    of [producer], turn [j] of the sentinel loop, turn [j] of the
    collecting loop with the running [total], at [asyncio.gather], or
    after [print]. *)
Inductive main_pc :=
  | Spawning (k : Z)
  | Producing (i : Z)
  | Sentinels (j : Z)
  | Collecting (j : Z) (total : Z)
  | Gathering (total : Z)
  | Done (total : Z).

(** What happened, in order. *)
Inductive event :=
  | EvSpawn (w : nat)
  | EvClockStart
  | EvPut (val : Z)
  | EvGot (w : nat) (val : Z)
  | EvReport (w : nat) (count : Z)
  | EvCollect (count : Z)
  | EvGather
  | EvClockStop
  | EvPrint (total : Z).

#[global] Instance task_eq_dec : EqDecision task.
Proof. solve_decision. Defined.
#[global] Instance worker_pc_eq_dec : EqDecision worker_pc.
Proof. solve_decision. Defined.
#[global] Instance main_pc_eq_dec : EqDecision main_pc.
Proof. solve_decision. Defined.
#[global] Instance event_eq_dec : EqDecision event.
Proof. solve_decision. Defined.

Record state := State {
  work_queue : list Z;
  done_queue : list Z;
  workers : list worker_pc;
  main : main_pc;
  trace : list event
}.

Definition init : state := State [] [] [] (Spawning 0) [].

(** What a worker does with the value it got: [if val < 0] it goes on to
    report, otherwise [count += 1] and it yields. *)
Definition worker_recv (count val : Z) : worker_pc :=
  if decide (val < 0) then AtPut count else AtSleep (count + 1).

Definition is_exited (pc : worker_pc) : bool :=
  match pc with Exited => true | _ => false end.

Definition step_worker (w : nat) (s : state) : option state :=
  pc ← workers s !! w;
  match pc with
  | AtGet count =>
      match work_queue s with
      | [] => None
      | val :: q =>
          Some (State q (done_queue s)
                      (<[w := worker_recv count val]> (workers s))
                      (main s) (trace s ++ [EvGot w val]))
      end
  | AtPut count =>
      Some (State (work_queue s) (done_queue s ++ [count])
                  (<[w := Exited]> (workers s))
                  (main s) (trace s ++ [EvReport w count]))
  | AtSleep count =>
      Some (State (work_queue s) (done_queue s)
                  (<[w := AtGet count]> (workers s))
                  (main s) (trace s))
  | Exited => None
  end.

Section Run.

(** [NUM_MESSAGES] and [NUM_WORKERS]. *)
Variables N W : Z.

Definition step_main (s : state) : option state :=
  match main s with
  | Spawning k =>
      if decide (k < W) then
        (* asyncio.create_task(worker(work_queue, done_queue)) *)
        Some (State (work_queue s) (done_queue s)
                    (workers s ++ [AtGet 0]) (Spawning (k + 1))
                    (trace s ++ [EvSpawn (length (workers s))]))
      else
        (* start = time.perf_counter_ns() *)
        Some (State (work_queue s) (done_queue s) (workers s) (Producing 0)
                    (trace s ++ [EvClockStart]))
  | Producing i =>
      if decide (i < N) then
        (* await work_queue.put(i) *)
        Some (State (work_queue s ++ [i]) (done_queue s) (workers s)
                    (Producing (i + 1)) (trace s ++ [EvPut i]))
      else
        Some (State (work_queue s) (done_queue s) (workers s) (Sentinels 0)
                    (trace s))
  | Sentinels j =>
      if decide (j < W) then
        (* await work_queue.put(-1) *)
        Some (State (work_queue s ++ [-1]) (done_queue s) (workers s)
                    (Sentinels (j + 1)) (trace s ++ [EvPut (-1)]))
      else
        Some (State (work_queue s) (done_queue s) (workers s) (Collecting 0 0)
                    (trace s))
  | Collecting j total =>
      if decide (j < W) then
        (* total += await done_queue.get() *)
        match done_queue s with
        | [] => None
        | c :: d =>
            Some (State (work_queue s) d (workers s)
                        (Collecting (j + 1) (total + c))
                        (trace s ++ [EvCollect c]))
        end
      else
        Some (State (work_queue s) (done_queue s) (workers s) (Gathering total)
                    (trace s))
  | Gathering total =>
      (* await asyncio.gather on the workers; elapsed = ...; print(...) *)
      if forallb is_exited (workers s) then
        Some (State (work_queue s) (done_queue s) (workers s) (Done total)
                    (trace s ++ [EvGather; EvClockStop; EvPrint total]))
      else None
  | Done _ => None
  end.

Definition step (t : task) (s : state) : option state :=
  match t with
  | Main => step_main s
  | Worker w => step_worker w s
  end.

(** Run a schedule: the tasks picked, one step each.  [None] when a task
    is picked that cannot move. *)
Fixpoint run (sched : list task) (s : state) : option state :=
  match sched with
  | [] => Some s
  | t :: sched => s' ← step t s; run sched s'
  end.

End Run.

(** ** Bookkeeping for the invariant *)

(** Sum of [f] over a list. *)
Definition sum_with {A} (f : A → Z) (l : list A) : Z :=
  foldr (λ x acc, f x + acc) 0 l.

Definition count_of (pc : worker_pc) : Z :=
  match pc with
  | AtGet c | AtPut c | AtSleep c => c
  | Exited => 0
  end.

(** The worker has taken a sentinel. *)
Definition is_out (pc : worker_pc) : Z :=
  match pc with AtPut _ | Exited => 1 | _ => 0 end.

Definition has_exited (pc : worker_pc) : Z :=
  match pc with Exited => 1 | _ => 0 end.

Section Invariant.

Variables N W : Z.

Definition spawned (pc : main_pc) : Z :=
  match pc with Spawning k => k | _ => W end.

Definition produced (pc : main_pc) : Z :=
  match pc with Spawning _ => 0 | Producing i => i | _ => N end.

Definition sentinels_put (pc : main_pc) : Z :=
  match pc with
  | Spawning _ | Producing _ => 0
  | Sentinels j => j
  | _ => W
  end.

Definition collected (pc : main_pc) : Z :=
  match pc with
  | Collecting j _ => j
  | Gathering _ | Done _ => W
  | _ => 0
  end.

Definition total_of (pc : main_pc) : Z :=
  match pc with
  | Collecting _ t | Gathering t | Done t => t
  | _ => 0
  end.

Definition pc_ok (pc : main_pc) : Prop :=
  match pc with
  | Spawning k => 0 ≤ k ≤ W
  | Producing i => 0 ≤ i ≤ N
  | Sentinels j => 0 ≤ j ≤ W
  | Collecting j _ => 0 ≤ j ≤ W
  | _ => True
  end.

(** Messages taken out of the work queue so far: the counts the workers
    hold, the counts waiting on the results queue, and the counts already
    added up. *)
Definition consumed (s : state) : Z :=
  sum_with count_of (workers s) + sum (done_queue s) + total_of (main s).

(** The invariant of the run.  The work queue holds the messages not
    taken yet, in order, then the sentinels not taken yet; a sentinel is
    taken only when no message is left; every worker that has returned
    has its count on the results queue or in [total]. *)
Record inv (s : state) : Prop := Inv {
  inv_spawned : Z.of_nat (length (workers s)) = spawned (main s);
  inv_pc : pc_ok (main s);
  inv_consumed : 0 ≤ consumed s ≤ produced (main s);
  inv_work : ∃ ns : nat,
    work_queue s
    = seqZ (consumed s) (produced (main s) - consumed s) ++ replicate ns (-1)
    ∧ Z.of_nat ns + sum_with is_out (workers s) = sentinels_put (main s);
  inv_drained :
    0 < sum_with is_out (workers s) → consumed s = produced (main s);
  inv_done :
    sum_with has_exited (workers s)
    = Z.of_nat (length (done_queue s)) + collected (main s)
}.

(** Steps left, an upper bound that every step lowers. *)
Definition main_left (pc : main_pc) : Z :=
  match pc with
  | Spawning k => 2 * Z.max 0 (W - k) + 4 * N + 5 * W + 5
  | Producing i => 4 * Z.max 0 (N - i) + 5 * W + 4
  | Sentinels j => 4 * Z.max 0 (W - j) + W + 3
  | Collecting j _ => Z.max 0 (W - j) + 2
  | Gathering _ => 1
  | Done _ => 0
  end.

Definition worker_left (pc : worker_pc) : Z :=
  match pc with
  | AtGet _ => 1
  | AtPut _ => 1
  | AtSleep _ => 2
  | Exited => 0
  end.

Definition steps_left (s : state) : Z :=
  main_left (main s) + 3 * Z.of_nat (length (work_queue s))
  + sum_with worker_left (workers s).

End Invariant.

(** ** Reading the trace *)

Definition put_val (e : event) : option Z :=
  match e with EvPut v => Some v | _ => None end.

Definition collect_val (e : event) : option Z :=
  match e with EvCollect c => Some c | _ => None end.

(** The values [main] has put on the work queue, and the counts it has
    read from the results queue, in order. *)
Definition puts (tr : list event) : list Z := omap put_val tr.
Definition collects (tr : list event) : list Z := omap collect_val tr.

(** Worker [w] gets the sentinel. *)
Definition got_sentinel (w : nat) (e : event) : Z :=
  match e with
  | EvGot w' v => if decide (w' = w ∧ v = -1) then 1 else 0
  | _ => 0
  end.

(** Worker [w] puts its count on the results queue and returns. *)
Definition reported (w : nat) (e : event) : Z :=
  match e with
  | EvReport w' _ => if decide (w' = w) then 1 else 0
  | _ => 0
  end.

(** The events between the two readings of the clock. *)
Fixpoint after_start (tr : list event) : list event :=
  match tr with
  | [] => []
  | EvClockStart :: tr => tr
  | _ :: tr => after_start tr
  end.

Fixpoint before_stop (tr : list event) : list event :=
  match tr with
  | [] => []
  | EvClockStop :: _ => []
  | e :: tr => e :: before_stop tr
  end.

Definition timed_window (tr : list event) : list event :=
  before_stop (after_start tr).

(** Traffic on the two queues. *)
Definition is_traffic (e : event) : bool :=
  match e with
  | EvPut _ | EvGot _ _ | EvReport _ _ | EvCollect _ => true
  | _ => false
  end.

Definition starts_with_put (tr : list event) : Prop :=
  match tr with EvPut _ :: _ => True | _ => False end.

(** Nothing has moved yet: the queues are empty and every worker waits
    for its first value. *)
Definition quiet (s : state) : Prop :=
  work_queue s = [] ∧ done_queue s = []
  ∧ Forall (λ pc, pc = AtGet 0) (workers s).

Definition spawns (n : nat) : list event := EvSpawn <$> seq 0 n.

Section TraceInvariant.

Variables N W : Z.

(** The trace is the creation of the workers, then the first reading of
    the clock, then traffic that starts with a [put] of [main], then (at
    the end) the gathering, the second reading and the printing. *)
Definition shape (s : state) : Prop :=
  match main s with
  | Spawning _ => trace s = spawns (length (workers s)) ∧ quiet s
  | Done total =>
      ∃ mid,
        trace s = spawns (length (workers s))
                  ++ EvClockStart :: mid ++ [EvGather; EvClockStop; EvPrint total]
        ∧ forallb is_traffic mid = true
        ∧ (mid = [] ∨ starts_with_put mid)
  | _ =>
      ∃ mid,
        trace s = spawns (length (workers s)) ++ EvClockStart :: mid
        ∧ forallb is_traffic mid = true
        ∧ (mid = [] ∧ quiet s ∨ starts_with_put mid)
  end.

Record tinv (s : state) : Prop := TInv {
  t_puts :
    puts (trace s)
    = seqZ 0 (produced N (main s))
      ++ replicate (Z.to_nat (sentinels_put W (main s))) (-1);
  t_collects :
    sum (collects (trace s)) = total_of (main s)
    ∧ Z.of_nat (length (collects (trace s))) = collected W (main s);
  t_got : ∀ w,
    sum_with (got_sentinel w) (trace s)
    = from_option is_out 0 (workers s !! w);
  t_reported : ∀ w,
    sum_with (reported w) (trace s)
    = from_option has_exited 0 (workers s !! w);
  t_shape : shape s
}.

End TraceInvariant.

(** The run is over when [main] has printed. *)
Definition finished (s : state) : Prop := ∃ total, main s = Done total.

#[global] Instance finished_dec s : Decision (finished s).
Proof.
  unfold finished. destruct (main s); try (right; intros [? ?]; discriminate).
  left. by eexists.
Defined.

(** ** Sample runs and states *)

(** Two workers, two messages. *)
Definition two_by_two : list task :=
  [ Main; Main; Main; Main; Worker 0; Main; Worker 1; Main; Main; Main; Main;
    Worker 0; Worker 0; Worker 1; Worker 1; Worker 1; Main; Worker 0; Main;
    Main; Main ].

Definition two_by_two_end : state :=
  State [] [] [Exited; Exited] (Done 2)
    [ EvSpawn 0; EvSpawn 1; EvClockStart; EvPut 0; EvGot 0 0; EvPut 1;
      EvGot 1 1; EvPut (-1); EvPut (-1); EvGot 0 (-1); EvGot 1 (-1);
      EvReport 1 1; EvCollect 1; EvReport 0 1; EvCollect 1;
      EvGather; EvClockStop; EvPrint 2 ].

(** The shortest run: no message, one worker. *)
Definition one_sentinel : list task :=
  [Main; Main; Main; Main; Main; Worker 0; Worker 0; Main; Main; Main].

Definition one_sentinel_end : state :=
  State [] [] [Exited] (Done 0)
    [ EvSpawn 0; EvClockStart; EvPut (-1); EvGot 0 (-1); EvReport 0 0;
      EvCollect 0; EvGather; EvClockStop; EvPrint 0 ].

(** One message, one worker. *)
Definition one_by_one : list task :=
  [ Main; Main; Main; Main; Main; Main; Worker 0; Worker 0; Worker 0;
    Worker 0; Main; Main; Main ].

Definition one_by_one_end : state :=
  State [] [] [Exited] (Done 1)
    [ EvSpawn 0; EvClockStart; EvPut 0; EvPut (-1); EvGot 0 0; EvGot 0 (-1);
      EvReport 0 1; EvCollect 1; EvGather; EvClockStop; EvPrint 1 ].

(** A work queue that holds a negative value other than the sentinel. *)
Definition stray_negative : state :=
  State [-2] [] [AtGet 0] (Collecting 0 0) [].

(** ** Who took what *)

Definition got_val (e : event) : option Z :=
  match e with EvGot _ v => Some v | _ => None end.

(** The values the workers have taken from the work queue, in the order
    they were taken. *)
Definition taken (tr : list event) : list Z := omap got_val tr.

(** The values taken so far: the first messages, in order, and then, once
    no message is left, the sentinels. *)
Definition taken_in_order (s : state) : Prop :=
  taken (trace s)
  = seqZ 0 (consumed s)
    ++ replicate (Z.to_nat (sum_with is_out (workers s))) (-1).

(** Worker [w] takes a message (a value that is not negative). *)
Definition took (w : nat) (e : event) : Z :=
  match e with
  | EvGot w' v => if decide (w' = w ∧ 0 ≤ v) then 1 else 0
  | _ => 0
  end.

(** What the trace says about worker [w]'s [count]: a worker that has not
    reported holds the number of messages it took and has no report in the
    trace; a report in the trace carries the number of messages the worker
    took. *)
Definition counts_right (s : state) (w : nat) : Prop :=
  match workers s !! w with
  | Some Exited =>
      (∃ c, EvReport w c ∈ trace s)
      ∧ ∀ c, EvReport w c ∈ trace s → c = sum_with (took w) (trace s)
  | Some pc =>
      count_of pc = sum_with (took w) (trace s)
      ∧ ∀ c, EvReport w c ∉ trace s
  | None =>
      sum_with (took w) (trace s) = 0 ∧ ∀ c, EvReport w c ∉ trace s
  end.

End Fanout.

(** * Primes: [benchmarks/primes/python.py] *)

Module Primes.

(** Python's [range(start, stop, step)] for a step above zero. *)
Definition range (start stop step : Z) : list Z :=
  (λ k, start + k * step) <$> seqZ 0 ((stop - start + step - 1) / step).

Section IsPrime.

(** [int_sqrt n] stands for [int(math.sqrt(n))], which goes through a
    floating-point square root.  What is needed of it is a hypothesis of
    the statements. *)
Variable int_sqrt : Z → Z.

Definition is_prime (n : Z) : bool :=
  if decide (n < 2) then false
  else if decide (n = 2) then true
  else if decide (n `mod` 2 = 0) then false
  else forallb (λ i, negb (bool_decide (n `mod` i = 0)))
               (range 3 (int_sqrt n + 1) 2).

Definition count_primes (limit : Z) : Z :=
  foldl (λ count n, if is_prime n then count + 1 else count) 0
        (range 2 (limit + 1) 1).

End IsPrime.

(** [r] is the integer square root of [n]. *)
Definition is_sqrt (n r : Z) : Prop := 0 ≤ r ∧ r * r ≤ n < (r + 1) * (r + 1).

#[global] Instance prime_decision (p : Z) : Decision (prime p) := prime_dec p.

End Primes.

(** * Collections: [benchmarks/collections/python.py] *)

Module Collections.
Import Fibonacci.

(** [reduce(lambda acc, x: acc + x, xs, 0)]. *)
Definition fold_sum (xs : list Z) : Z := foldl (λ acc x, acc + x) 0 xs.

Definition line (test : string) (result elapsed : Z) : string :=
  "BENCH:collections:" +:+ test +:+ ":" +:+ pretty result +:+ ":" +:+ pretty elapsed.

Section Main.

Variable perf_counter : nat → Z.

(** [NUM_ELEMENTS]. *)
Variable NUM_ELEMENTS : Z.

Definition data : list Z := seqZ 0 NUM_ELEMENTS.
Definition mapped : list Z := (λ x, x * 2) <$> data.
Definition filtered : list Z := filter (λ x, x `mod` 2 = 0) data.
Definition total : Z := fold_sum data.
Definition chain : Z :=
  fold_sum (filter (λ x, x `mod` 2 = 0) ((λ x, x * 3) <$> data)).

Definition main : io unit :=
  (start ← perf_counter_ns perf_counter;
   let data := data in
   stop ← perf_counter_ns perf_counter;
   print (line "build-100k" (Z.of_nat (length data)) ((stop - start) / 1000000));;
   start ← perf_counter_ns perf_counter;
   let mapped := mapped in
   stop ← perf_counter_ns perf_counter;
   print (line "map-double" (Z.of_nat (length mapped)) ((stop - start) / 1000000));;
   start ← perf_counter_ns perf_counter;
   let filtered := filtered in
   stop ← perf_counter_ns perf_counter;
   print (line "filter-evens" (Z.of_nat (length filtered))
               ((stop - start) / 1000000));;
   start ← perf_counter_ns perf_counter;
   let total := total in
   stop ← perf_counter_ns perf_counter;
   print (line "fold-sum" total ((stop - start) / 1000000));;
   start ← perf_counter_ns perf_counter;
   let result := chain in
   stop ← perf_counter_ns perf_counter;
   print (line "chain" result ((stop - start) / 1000000)))%io.

End Main.

End Collections.

(** * Properties *)

(** ** Sums and ranges *)

Lemma sum_app (l k : list Z) : sum (l ++ k) = sum l + sum k.
Proof. unfold sum. induction l as [|x l IH]; simpl; lia. Qed.

Lemma sum_cons (x : Z) (l : list Z) : sum (x :: l) = x + sum l.
Proof. reflexivity. Qed.

Lemma sum_snoc (l : list Z) (x : Z) : sum (l ++ [x]) = sum l + x.
Proof. rewrite sum_app. unfold sum. simpl. lia. Qed.

(** [seqZ] peels at the right end like [range] grows. *)
Lemma seqZ_snoc (m n : Z) : 0 ≤ n → seqZ m (n + 1) = seqZ m n ++ [m + n].
Proof.
  intros Hn. by rewrite seqZ_app by lia.
Qed.

(** ** Fibonacci *)

Module FibonacciFacts.
Import Fibonacci.

Lemma fib_naive_eqn (n : Z) :
  fib_naive n = if decide (n < 2) then n else fib_naive (n - 1) + fib_naive (n - 2).
Proof.
  rewrite fib_naive_equation_1. simpl.
  destruct (Z_lt_dec n 2); case_decide; simpl; done || lia.
Qed.

Lemma fib_naive_small (n : Z) : n < 2 → fib_naive n = n.
Proof. intros. rewrite fib_naive_eqn. by case_decide. Qed.

Lemma fib_naive_rec (n : Z) :
  2 ≤ n → fib_naive n = fib_naive (n - 1) + fib_naive (n - 2).
Proof. intros. rewrite fib_naive_eqn. case_decide; [lia | done]. Qed.

(** The loop invariant of [fib_fast]: after [k] turns, [(a, b)] holds the
    [k]-th and the next Fibonacci number. *)
Lemma fib_loop (k : nat) :
  foldl (λ ab _, fib_step ab) (0, 1) (seqZ 0 (Z.of_nat k))
  = (fib_naive (Z.of_nat k), fib_naive (Z.of_nat k + 1)).
Proof.
  induction k as [|k IH].
  - rewrite seqZ_nil by lia. simpl. by rewrite !fib_naive_small by lia.
  - rewrite seqZ_S, foldl_app, IH. simpl. unfold fib_step. simpl.
    f_equal; [f_equal; lia|].
    rewrite (fib_naive_rec (Z.of_nat (S k) + 1)) by lia.
    rewrite Z.add_comm. f_equal; f_equal; lia.
Qed.

(** [fib_naive] by the loop, for evaluation: the recursion itself takes
    exponentially many calls. *)
Lemma fib_naive_loop (n : Z) :
  0 ≤ n →
  fib_naive n = (foldl (λ ab _, fib_step ab) (0, 1) (seqZ 0 n)).1.
Proof.
  intros Hn. replace n with (Z.of_nat (Z.to_nat n)) at 2 by lia.
  rewrite fib_loop. simpl. f_equal. lia.
Qed.

Example fib_naive_10 : fib_naive 10 = 55.
Proof. reflexivity. Qed.

Example fib_fast_70 : fib_fast 70 = 190392490709135.
Proof. reflexivity. Qed.

Example fib_negative : fib_naive (-3) = -3 ∧ fib_fast (-3) = -3.
Proof. split; reflexivity. Qed.

(** [bench_repeated] keeps the result of the last call. *)
Lemma repeated_result (f : Z → Z) (n iterations : Z) :
  0 < iterations → foldl (λ _ _, f n) 0 (seqZ 0 iterations) = f n.
Proof.
  intros Hi. replace iterations with ((iterations - 1) + 1) by lia.
  rewrite seqZ_snoc by lia. by rewrite foldl_app.
Qed.

Lemma exec_seq {A} (m : io A) (k : io unit) (w : world) :
  exec (m;; k)%io w = exec k (exec m w).
Proof. unfold exec, bind. by destruct (m w). Qed.

Section BenchFacts.

Variable perf_counter : nat → Z.

Lemma bench_exec name n expected func w :
  exec (bench perf_counter name n expected func) w
  = World (S (S (reads w)))
      (out w ++ report name (func n) expected (elapsed perf_counter (reads w))).
Proof.
  unfold bench, report, elapsed, exec, bind, perf_counter_ns, print, ret. simpl.
  repeat case_decide; simpl; try done; by rewrite <- app_assoc.
Qed.

Lemma bench_repeated_exec name n iterations expected func w :
  exec (bench_repeated perf_counter name n iterations expected func) w
  = World (S (S (reads w)))
      (out w ++ report name (foldl (λ _ _, func n) 0 (seqZ 0 iterations))
                       expected (elapsed perf_counter (reads w))).
Proof.
  unfold bench_repeated, report, elapsed, exec, bind, perf_counter_ns, print, ret.
  simpl. repeat case_decide; simpl; try done; by rewrite <- app_assoc.
Qed.

Lemma main_with_exec (naive fast : Z → Z) (w : world) :
  let t := elapsed perf_counter in
  let k := reads w in
  out (exec (main_with perf_counter naive fast) w)
  = out w
    ++ report "fib-naive-30" (naive 30) 832040 (t k)
    ++ report "fib-naive-35" (naive 35) 9227465 (t (2 + k)%nat)
    ++ report "fib-fast-30" (fast 30) 832040 (t (4 + k)%nat)
    ++ report "fib-fast-50" (fast 50) 12586269025 (t (6 + k)%nat)
    ++ report "fib-fast-70" (fast 70) 190392490709135 (t (8 + k)%nat)
    ++ report "fib-naive-20-x1000" (naive 20) 6765 (t (10 + k)%nat)
    ++ report "fib-fast-20-x1000" (fast 20) 6765 (t (12 + k)%nat).
Proof.
  intros t k. unfold main_with.
  rewrite !exec_seq, bench_repeated_exec, bench_repeated_exec, !bench_exec.
  rewrite !repeated_result by lia. cbn [reads out].
  by rewrite <- !app_assoc.
Qed.

End BenchFacts.

Example bench_mismatch :
  out (exec (bench (λ k, 3000000 * Z.of_nat k) "fib-naive-30" 30 832040 (λ _, 7))
         (World 0 []))
  = ["BENCH:fibonacci:fib-naive-30:7:3"; "ERROR: expected 832040, got 7"].
Proof. reflexivity. Qed.

Example bench_match :
  out (exec (bench (λ k, 3000000 * Z.of_nat k) "fib-fast-30" 30 832040 fib_fast)
         (World 0 []))
  = ["BENCH:fibonacci:fib-fast-30:832040:3"].
Proof. reflexivity. Qed.

(** The expected values of [main] are the right ones: the reference run
    prints seven [BENCH:] lines and no diagnostic. *)
Lemma main_prints_no_error (perf_counter : nat → Z) (w : world) :
  let t := elapsed perf_counter in
  let k := reads w in
  out (exec (main perf_counter) w)
  = out w ++
    [ bench_line "fib-naive-30" 832040 (t k);
      bench_line "fib-naive-35" 9227465 (t (2 + k)%nat);
      bench_line "fib-fast-30" 832040 (t (4 + k)%nat);
      bench_line "fib-fast-50" 12586269025 (t (6 + k)%nat);
      bench_line "fib-fast-70" 190392490709135 (t (8 + k)%nat);
      bench_line "fib-naive-20-x1000" 6765 (t (10 + k)%nat);
      bench_line "fib-fast-20-x1000" 6765 (t (12 + k)%nat) ].
Proof.
  intros t k. unfold main. rewrite main_with_exec.
  replace (fib_naive 30) with 832040
    by (rewrite fib_naive_loop by lia; by vm_compute).
  replace (fib_naive 35) with 9227465
    by (rewrite fib_naive_loop by lia; by vm_compute).
  replace (fib_naive 20) with 6765
    by (rewrite fib_naive_loop by lia; by vm_compute).
  replace (fib_fast 30) with 832040 by (by vm_compute).
  replace (fib_fast 50) with 12586269025 by (by vm_compute).
  replace (fib_fast 70) with 190392490709135 by (by vm_compute).
  replace (fib_fast 20) with 6765 by (by vm_compute).
  unfold report. by repeat case_decide.
Qed.

(** C7.  A sub-test whose result is not the expected value still prints its
    [BENCH:] line, then the line [ERROR: expected <X>, got <Y>]; a sub-test
    whose result is the expected value prints its [BENCH:] line only.  In
    both cases the run goes on: whatever the two functions return, [main]
    prints the seven [BENCH:] lines in order, each followed by its
    diagnostic exactly when its result is off.  The text of the lines is
    written out here as the source has it. *)
Theorem bench_reports_mismatch_and_continues :
  let bench_text (name : string) (result ms : Z) : string :=
    "BENCH:fibonacci:" +:+ name +:+ ":" +:+ pretty result +:+ ":" +:+ pretty ms in
  let error_text (expected result : Z) : string :=
    "ERROR: expected " +:+ pretty expected +:+ ", got " +:+ pretty result in
  let lines (name : string) (result expected ms : Z) : list string :=
    if decide (result = expected)
    then [bench_text name result ms]
    else [bench_text name result ms; error_text expected result] in
  let ms (perf_counter : nat → Z) (k : nat) : Z :=
    (perf_counter (S k) - perf_counter k) / 1000000 in
  (∀ perf_counter name n expected func w,
     exec (bench perf_counter name n expected func) w
     = World (S (S (reads w)))
         (out w ++ lines name (func n) expected (ms perf_counter (reads w))))
  ∧ (∀ perf_counter name n iterations expected func w,
     let result := foldl (λ _ _, func n) 0 (seqZ 0 iterations) in
     exec (bench_repeated perf_counter name n iterations expected func) w
     = World (S (S (reads w)))
         (out w ++ lines name result expected (ms perf_counter (reads w))))
  ∧ (∀ perf_counter naive fast w,
     let t := ms perf_counter in
     let k := reads w in
     out (exec (main_with perf_counter naive fast) w)
     = out w
       ++ lines "fib-naive-30" (naive 30) 832040 (t k)
       ++ lines "fib-naive-35" (naive 35) 9227465 (t (2 + k)%nat)
       ++ lines "fib-fast-30" (fast 30) 832040 (t (4 + k)%nat)
       ++ lines "fib-fast-50" (fast 50) 12586269025 (t (6 + k)%nat)
       ++ lines "fib-fast-70" (fast 70) 190392490709135 (t (8 + k)%nat)
       ++ lines "fib-naive-20-x1000" (naive 20) 6765 (t (10 + k)%nat)
       ++ lines "fib-fast-20-x1000" (fast 20) 6765 (t (12 + k)%nat)).
Proof.
  intros bench_text error_text lines ms.
  assert (∀ perf_counter name result expected k,
            report name result expected (elapsed perf_counter k)
            = lines name result expected (ms perf_counter k)) as Hlines.
  { intros. unfold report, lines. by case_decide. }
  split; [|split].
  - intros. by rewrite bench_exec, Hlines.
  - intros. subst result. by rewrite bench_repeated_exec, Hlines.
  - intros. subst t k. rewrite main_with_exec. by rewrite !Hlines.
Qed.

Lemma bench_reports_mismatch_and_continues_witness :
  out (exec (bench (λ k, 3000000 * Z.of_nat k) "fib-naive-30" 30 832040 (λ _, 7))
         (World 0 []))
  = ["BENCH:fibonacci:fib-naive-30:7:3"; "ERROR: expected 832040, got 7"]
  ∧ out (exec (bench (λ k, 3000000 * Z.of_nat k) "fib-fast-30" 30 832040 fib_fast)
           (World 0 []))
    = ["BENCH:fibonacci:fib-fast-30:832040:3"]
  ∧ out (exec (main_with (λ k, 3000000 * Z.of_nat k) (λ n, n - 1) fib_fast)
           (World 0 []))
    = [ "BENCH:fibonacci:fib-naive-30:29:3"; "ERROR: expected 832040, got 29";
        "BENCH:fibonacci:fib-naive-35:34:3"; "ERROR: expected 9227465, got 34";
        "BENCH:fibonacci:fib-fast-30:832040:3";
        "BENCH:fibonacci:fib-fast-50:12586269025:3";
        "BENCH:fibonacci:fib-fast-70:190392490709135:3";
        "BENCH:fibonacci:fib-naive-20-x1000:19:3"; "ERROR: expected 6765, got 19";
        "BENCH:fibonacci:fib-fast-20-x1000:6765:3" ].
Proof.
  split; [|split].
  - exact (f_equal out
             (proj1 bench_reports_mismatch_and_continues
                (λ k, 3000000 * Z.of_nat k) "fib-naive-30" 30 832040 (λ _, 7)
                (World 0 []))).
  - exact (f_equal out
             (proj1 bench_reports_mismatch_and_continues
                (λ k, 3000000 * Z.of_nat k) "fib-fast-30" 30 832040 fib_fast
                (World 0 []))).
  - exact (proj2 (proj2 bench_reports_mismatch_and_continues)
             (λ k, 3000000 * Z.of_nat k) (λ n, n - 1) fib_fast (World 0 [])).
Defined.

(** C8.  The iterative and the naive recursive implementation compute the
    same function: [fib_fast n = fib_naive n] for every integer [n], in
    particular for every [n >= 0]. *)
Theorem fib_fast_eq_fib_naive (n : Z) : fib_fast n = fib_naive n.
Proof.
  unfold fib_fast. case_decide as Hn.
  - (* both return [n] *)
    by rewrite fib_naive_small.
  - (* [n - 1] turns of the loop *)
    replace (n - 1) with (Z.of_nat (Z.to_nat (n - 1))) at 1 by lia.
    rewrite fib_loop. simpl. f_equal. lia.
Qed.

(** *** The sequence, the cost and the edge cases of [bench_repeated] *)

Lemma fib_fast_loop (n : Z) :
  0 ≤ n →
  fib_fast n = (foldl (λ ab _, fib_step ab) (0, 1) (seqZ 0 n)).1.
Proof.
  intros Hn. unfold fib_fast. case_decide as Hlt.
  - assert (n = 0 ∨ n = 1) as [-> | ->] by lia; reflexivity.
  - replace n with ((n - 1) + 1) at 2 by lia.
    rewrite seqZ_snoc, foldl_app by lia. simpl. done.
Qed.

Lemma fib_loop_step (k : nat) :
  let ab := foldl (λ ab _, fib_step ab) (0, 1) (seqZ 0 (Z.of_nat k)) in
  0 ≤ ab.1 ≤ ab.2
  ∧ foldl (λ ab _, fib_step ab) (0, 1) (seqZ 0 (Z.of_nat k + 1))
    = (ab.2, ab.1 + ab.2).
Proof.
  induction k as [|k [IH1 IH2]].
  - split; [by vm_compute | reflexivity].
  - replace (Z.of_nat (S k)) with (Z.of_nat k + 1) by lia.
    rewrite IH2. simpl. split; [lia|].
    replace (Z.of_nat k + 1 + 1) with ((Z.of_nat k + 1) + 1) by lia.
    rewrite (seqZ_snoc 0 (Z.of_nat k + 1)) by lia.
    by rewrite foldl_app, IH2.
Qed.

Lemma fib_naive_calls_eqn (n : Z) :
  fib_naive_calls n
  = if decide (n < 2) then 1
    else 1 + fib_naive_calls (n - 1) + fib_naive_calls (n - 2).
Proof.
  rewrite fib_naive_calls_equation_1. simpl.
  destruct (Z_lt_dec n 2); case_decide; simpl; done || lia.
Qed.

Lemma fib_naive_calls_pair (k : nat) :
  fib_naive_calls (Z.of_nat k) = 2 * fib_naive (Z.of_nat k + 1) - 1
  ∧ fib_naive_calls (Z.of_nat k + 1) = 2 * fib_naive (Z.of_nat k + 2) - 1.
Proof.
  induction k as [|k [IH1 IH2]].
  - split; reflexivity.
  - replace (Z.of_nat (S k)) with (Z.of_nat k + 1) by lia.
    split; [by rewrite IH2; do 3 f_equal; lia|].
    rewrite fib_naive_calls_eqn. case_decide; [lia|].
    replace (Z.of_nat k + 1 + 1 - 1) with (Z.of_nat k + 1) by lia.
    replace (Z.of_nat k + 1 + 1 - 2) with (Z.of_nat k) by lia.
    rewrite IH1, IH2.
    rewrite (fib_naive_rec (Z.of_nat k + 1 + 2)) by lia.
    replace (Z.of_nat k + 1 + 2 - 1) with (Z.of_nat k + 2) by lia.
    replace (Z.of_nat k + 1 + 2 - 2) with (Z.of_nat k + 1) by lia.
    lia.
Qed.

Example fib_naive_calls_20 : fib_naive_calls 20 = 21891.
Proof. by vm_compute. Qed.

(** X12.  [fib_fast] alone is the Fibonacci sequence on [n >= 0]: it
    starts with [0] and [1], every value is the sum of the two before it,
    and it never decreases. *)
Theorem fib_fast_sequence (n : Z) :
  0 ≤ n →
  fib_fast 0 = 0 ∧ fib_fast 1 = 1
  ∧ fib_fast (n + 2) = fib_fast (n + 1) + fib_fast n
  ∧ 0 ≤ fib_fast n ≤ fib_fast (n + 1).
Proof.
  intros Hn. split; [reflexivity|]. split; [reflexivity|].
  rewrite !fib_fast_loop by lia.
  destruct (fib_loop_step (Z.to_nat n)) as [Hord Hnext].
  destruct (fib_loop_step (Z.to_nat n + 1)) as [_ Hnext2].
  replace (Z.of_nat (Z.to_nat n + 1)) with (n + 1) in Hnext2 by lia.
  replace (Z.of_nat (Z.to_nat n)) with n in * by lia.
  replace (n + 2) with (n + 1 + 1) by lia.
  rewrite Hnext2, Hnext. simpl. lia.
Qed.

Lemma fib_fast_sequence_witness :
  0 ≤ 10 ∧ fib_fast 12 = fib_fast 11 + fib_fast 10.
Proof.
  split; [lia|].
  exact (proj1 (proj2 (proj2 (fib_fast_sequence 10 ltac:(lia))))).
Defined.

(** X13.  The cost of the naive recursion: on [n >= 0], [fib_naive n]
    makes [2 * fib_naive (n + 1) - 1] calls, itself included. *)
Theorem fib_naive_cost (n : Z) :
  0 ≤ n → fib_naive_calls n = 2 * fib_naive (n + 1) - 1.
Proof.
  intros Hn. destruct (fib_naive_calls_pair (Z.to_nat n)) as [H _].
  by replace (Z.of_nat (Z.to_nat n)) with n in H by lia.
Qed.

Lemma fib_naive_cost_witness :
  0 ≤ 20 ∧ fib_naive_calls 20 = 2 * fib_naive 21 - 1.
Proof. split; [lia|]. exact (fib_naive_cost 20 ltac:(lia)). Defined.

(** X14.  With at least one iteration, [bench_repeated] prints what
    [bench] prints: only the result of the last call is kept, and the
    calls all return the same. *)
Theorem bench_repeated_like_bench (perf_counter : nat → Z) (name : string)
    (n iterations expected : Z) (func : Z → Z) (w : world) :
  1 ≤ iterations →
  exec (bench_repeated perf_counter name n iterations expected func) w
  = exec (bench perf_counter name n expected func) w.
Proof.
  intros Hi. rewrite bench_repeated_exec, bench_exec.
  by rewrite repeated_result by lia.
Qed.

Lemma bench_repeated_like_bench_witness :
  1 ≤ 3
  ∧ out (exec (bench_repeated (λ k, Z.of_nat k) "x3" 20 3 6765 fib_fast)
           (World 0 []))
    = out (exec (bench (λ k, Z.of_nat k) "x3" 20 6765 fib_fast) (World 0 [])).
Proof.
  split; [lia|].
  exact (f_equal out
           (bench_repeated_like_bench (λ k, Z.of_nat k) "x3" 20 3 6765 fib_fast
              (World 0 []) ltac:(lia))).
Defined.

(** The loop over a function without effects keeps the last result and
    leaves the state alone. *)
Lemma repeat_calls_pure (f : Z → Z) (n : Z) (turns : list Z) (result : Z) (w : world) :
  repeat_calls (λ n, ret (f n)) n turns result w
  = (foldl (λ _ _, f n) result turns, w).
Proof.
  revert result. induction turns as [|i turns IH]; intros result; [done|].
  cbn [repeat_calls foldl]. unfold bind, ret at 1. apply IH.
Qed.

(** The loop runs the function once per turn. *)
Lemma repeat_calls_exec (func : Z → io Z) (n : Z) (turns : list Z) (result : Z)
    (w : world) :
  exec (repeat_calls func n turns result) w
  = Nat.iter (length turns) (exec (func n)) w.
Proof.
  revert result w. induction turns as [|i turns IH]; intros result w; [done|].
  cbn [repeat_calls length]. rewrite Nat.iter_succ_r.
  rewrite <- (IH (func n w).1). unfold exec, bind. by destruct (func n w).
Qed.

Example bench_repeated_logged :
  out (exec (bench_repeated_io (λ k, 2000000 * Z.of_nat k) "x2" 20 2 6765
               (logged fib_fast)) (World 0 []))
  = ["call 20"; "call 20"; "BENCH:fibonacci:x2:6765:2"].
Proof. reflexivity. Qed.

(** X15.  [bench_repeated] calls the function once per iteration, and so
    never with [iterations <= 0]: whatever the function would print or read,
    the run then consists of the two clock readings and the lines printed,
    which report the initial [0], with the diagnostic unless [0] was
    expected.  On a function without effects [bench_repeated_io] is
    [bench_repeated]. *)
Theorem bench_repeated_no_iteration (perf_counter : nat → Z) (name : string)
    (n iterations expected : Z) (w : world) :
  (∀ (func : Z → io Z) (result : Z) (w0 : world),
     exec (repeat_calls func n (seqZ 0 iterations) result) w0
     = Nat.iter (Z.to_nat iterations) (exec (func n)) w0)
  ∧ (∀ f : Z → Z,
       bench_repeated_io perf_counter name n iterations expected (λ n, ret (f n)) w
       = bench_repeated perf_counter name n iterations expected f w)
  ∧ (iterations ≤ 0 →
     ∀ func : Z → io Z,
       exec (bench_repeated_io perf_counter name n iterations expected func) w
       = World (S (S (reads w)))
           (out w
            ++ ("BENCH:fibonacci:" +:+ name +:+ ":0:"
                +:+ pretty ((perf_counter (S (reads w)) - perf_counter (reads w))
                            / 1000000))
            :: (if decide (expected = 0) then []
                else ["ERROR: expected " +:+ pretty expected +:+ ", got 0"]))).
Proof.
  split; [|split].
  - intros func result w0. by rewrite repeat_calls_exec, length_seqZ.
  - intros f. unfold bench_repeated_io, bench_repeated, bind.
    destruct (perf_counter_ns perf_counter w) as [start w1].
    by rewrite repeat_calls_pure.
  - intros Hi func. unfold bench_repeated_io. rewrite seqZ_nil by lia.
    unfold exec, bind, perf_counter_ns, print, ret, bench_line, error_line.
    cbn [repeat_calls reads out]. unfold ret.
    repeat case_decide; simpl; try done; try lia; by rewrite <- ?app_assoc.
Qed.

Lemma bench_repeated_no_iteration_witness :
  0 ≤ 0
  ∧ out (exec (bench_repeated_io (λ k, 2000000 * Z.of_nat k) "x0" 20 0 6765
                 (logged fib_fast)) (World 0 []))
    = ["BENCH:fibonacci:x0:0:2"; "ERROR: expected 6765, got 0"].
Proof.
  split; [lia|].
  exact (f_equal out
           (proj2 (proj2 (bench_repeated_no_iteration (λ k, 2000000 * Z.of_nat k)
                            "x0" 20 0 6765 (World 0 [])))
              ltac:(lia) (logged fib_fast))).
Defined.

(** X16.  If the clock does not go back between the two readings of a
    sub-test, the elapsed time on its [BENCH:] line is not negative and is
    the time between the readings rounded down to whole milliseconds. *)
Theorem bench_elapsed_whole_ms (perf_counter : nat → Z) (name : string)
    (n expected : Z) (func : Z → Z) (w : world) :
  perf_counter (reads w) ≤ perf_counter (S (reads w)) →
  ∃ ms rest,
    out (exec (bench perf_counter name n expected func) w)
    = out w ++ bench_line name (func n) ms :: rest
    ∧ 0 ≤ ms
    ∧ 1000000 * ms ≤ perf_counter (S (reads w)) - perf_counter (reads w)
      < 1000000 * (ms + 1).
Proof.
  intros Hmono. rewrite bench_exec. unfold report. simpl.
  eexists _, _. split; [done|]. unfold elapsed.
  set (d := perf_counter (S (reads w)) - perf_counter (reads w)).
  assert (0 ≤ d) by (unfold d; lia).
  pose proof (Z.div_mod d 1000000 ltac:(lia)).
  pose proof (Z.mod_pos_bound d 1000000 ltac:(lia)).
  split; [apply Z.div_pos; lia | lia].
Qed.

Lemma bench_elapsed_whole_ms_witness :
  (λ k, 2500000 * Z.of_nat k) 0%nat ≤ (λ k, 2500000 * Z.of_nat k) 1%nat
  ∧ ∃ ms rest,
      out (exec (bench (λ k, 2500000 * Z.of_nat k) "t" 20 6765 fib_fast)
             (World 0 []))
      = [] ++ bench_line "t" (fib_fast 20) ms :: rest
      ∧ 0 ≤ ms.
Proof.
  split; [simpl; lia|].
  destruct (bench_elapsed_whole_ms (λ k, 2500000 * Z.of_nat k) "t" 20 6765
              fib_fast (World 0 []) ltac:(simpl; lia))
    as (ms & rest & Hout & Hms & _).
  by exists ms, rest.
Defined.

End FibonacciFacts.

(** ** Skynet *)

Module SkynetFacts.
Import Skynet.

Lemma triangle_double (s : Z) : 2 * triangle s = s * (s - 1).
Proof.
  unfold triangle.
  assert ((s * (s - 1)) `mod` 2 = 0) as Hm.
  { destruct (Z.Even_or_Odd s) as [[q ->]|[q ->]].
    - replace (2 * q * (2 * q - 1)) with ((q * (2 * q - 1)) * 2) by lia.
      apply Z.mod_mul. lia.
    - replace ((2 * q + 1) * (2 * q + 1 - 1)) with (((2 * q + 1) * q) * 2) by lia.
      apply Z.mod_mul. lia. }
  pose proof (Z.div_mod (s * (s - 1)) 2 ltac:(lia)). lia.
Qed.

Lemma triangle_times_ten (s : Z) :
  triangle (10 * s) = 10 * triangle s + 45 * (s * s).
Proof.
  pose proof (triangle_double s). pose proof (triangle_double (10 * s)). lia.
Qed.

Lemma pow10_pos (k : nat) : 0 < 10 ^ Z.of_nat k.
Proof. apply Z.pow_pos_nonneg; lia. Qed.

Lemma pow10_succ (k : nat) : 10 ^ Z.of_nat (S k) = 10 * 10 ^ Z.of_nat k.
Proof. rewrite Nat2Z.inj_succ. apply Z.pow_succ_r. lia. Qed.

(** [size // 10] of a power of ten above one is the next lower power. *)
Lemma child_size_pow10 (k : nat) :
  10 ^ Z.of_nat (S k) ≠ 1 ∧ 10 ^ Z.of_nat (S k) / 10 = 10 ^ Z.of_nat k.
Proof.
  rewrite pow10_succ. pose proof (pow10_pos k). split; [lia|].
  rewrite Z.mul_comm. apply Z.div_mul. lia.
Qed.

Lemma range10 : seqZ 0 10 = [0; 1; 2; 3; 4; 5; 6; 7; 8; 9].
Proof. reflexivity. Qed.

(** A tree of depth [k] over [10^k] values starting at [num]. *)
Lemma skynet_pow10 (k extra : nat) (num : Z) :
  skynet (S k + extra) num (10 ^ Z.of_nat k)
  = Some (10 ^ Z.of_nat k * num + triangle (10 ^ Z.of_nat k)).
Proof.
  revert num. induction k as [|k IH]; intros num.
  - change (10 ^ Z.of_nat 0) with 1. simpl. f_equal.
    change (triangle 1) with 0. lia.
  - destruct (child_size_pow10 k) as [Hne Hdiv].
    change (S (S k) + extra)%nat with (S (S k + extra)).
    cbn [skynet]. case_decide; [done|]. rewrite Hdiv, range10.
    cbn [mapM]. rewrite !IH. cbn [mbind option_bind mret option_ret sum foldr].
    f_equal. rewrite pow10_succ, triangle_times_ten. lia.
Qed.

Lemma leaves_pow10 (k extra : nat) (num : Z) :
  leaves (S k + extra) num (10 ^ Z.of_nat k) = Some (seqZ num (10 ^ Z.of_nat k)).
Proof.
  revert num. induction k as [|k IH]; intros num.
  - by change (10 ^ Z.of_nat 0) with 1.
  - destruct (child_size_pow10 k) as [Hne Hdiv].
    change (S (S k) + extra)%nat with (S (S k + extra)).
    cbn [leaves]. case_decide; [done|]. rewrite Hdiv, range10.
    cbn [mapM]. rewrite !IH. cbn [mbind option_bind mret option_ret concat].
    f_equal. rewrite pow10_succ. pose proof (pow10_pos k).
    set (s := 10 ^ Z.of_nat k) in *.
    replace (10 * s) with (s + (s + (s + (s + (s + (s + (s + (s + (s + s)))))))))
      by lia.
    rewrite !seqZ_app by lia. rewrite app_nil_r.
    repeat (f_equal; try lia).
Qed.

(** The value returned is the sum of the leaf values, on every input. *)
Lemma skynet_sum_leaves (fuel : nat) (num size : Z) :
  skynet fuel num size = sum <$> leaves fuel num size.
Proof.
  revert num size. induction fuel as [|fuel IH]; intros num size; [done|].
  cbn [skynet leaves]. case_decide.
  - simpl. f_equal. unfold sum. simpl. lia.
  - cbv zeta. generalize (size / 10) as c. intros c.
    generalize (seqZ 0 10) as l. intros l.
    assert (mapM (λ i, skynet fuel (num + i * c) c) l
            = fmap sum <$> mapM (λ i, leaves fuel (num + i * c) c) l) as ->.
    { induction l as [|i l IHl]; [done|]. cbn [mapM]. rewrite IH, IHl. clear IHl.
      destruct (leaves fuel (num + i * c) c); [|done]. simpl.
      by destruct (mapM _ l). }
    destruct (mapM _ l) as [ls|]; [|done]. simpl. f_equal.
    induction ls as [|x ls IHls]; [done|].
    rewrite fmap_cons, sum_cons, IHls. cbn [concat]. by rewrite sum_app.
Qed.

(** More fuel does not change a result. *)
Lemma skynet_more_fuel (fuel extra : nat) (num size r : Z) :
  skynet fuel num size = Some r → skynet (fuel + extra) num size = Some r.
Proof.
  revert num size r. induction fuel as [|fuel IH]; intros num size r Hr; [done|].
  cbn [skynet Nat.add] in *. case_decide; [done|].
  destruct (mapM _ (seqZ 0 10)) as [results|] eqn:Hres; [|done].
  simpl in Hr. injection Hr as <-.
  assert (mapM (λ i, skynet (fuel + extra) (num + i * (size / 10)) (size / 10))
               (seqZ 0 10) = Some results) as ->; [|done].
  apply mapM_Some in Hres. apply mapM_Some.
  eapply Forall2_impl; [exact Hres|]. intros i y Hy. by apply IH.
Qed.

(** A size whose repeated [// 10] misses [1] never reaches the base case:
    the recursion arrives at [0 // 10 == 0] and spawns for ever. *)
Lemma skynet_zero_diverges (fuel : nat) (num : Z) : skynet fuel num 0 = None.
Proof.
  revert num. induction fuel as [|fuel IH]; intros num; [done|].
  cbn [skynet]. case_decide; try lia. rewrite range10. cbn [mapM].
  change (0 / 10) with 0. by rewrite (IH (num + 0 * 0)).
Qed.

Example skynet_5_diverges (fuel : nat) : skynet fuel 0 5 = None.
Proof.
  destruct fuel as [|fuel]; [done|]. cbn [skynet]. case_decide; try lia.
  rewrite range10. cbn [mapM]. change (5 / 10) with 0.
  by rewrite (skynet_zero_diverges fuel (0 + 0 * 0)).
Qed.

Example skynet_10 : skynet 2 0 10 = Some 45.
Proof. reflexivity. Qed.

Example skynet_1000_at_7 : skynet 4 7 1000 = Some 506500.
Proof. by vm_compute. Qed.

(** C2.  For every [S = 10^k], [skynet(0, S)] returns [S * (S - 1) / 2]
    (with any depth bound above [k]), and its leaves return the integers
    [0 .. S-1], each once, in order; [skynet(0, 10) = 45] and
    [skynet(0, 100000) = 4999950000]. *)
Theorem skynet_result (k extra : nat) :
  let S := 10 ^ Z.of_nat k in
  skynet (1 + k + extra) 0 S = Some (S * (S - 1) / 2)
  ∧ leaves (1 + k + extra) 0 S = Some (seqZ 0 S)
  ∧ skynet (1 + k + extra) 0 S = sum <$> leaves (1 + k + extra) 0 S
  ∧ skynet (2 + extra) 0 10 = Some 45
  ∧ skynet (6 + extra) 0 100000 = Some 4999950000.
Proof.
  intros S. subst S. split; [|split; [|split; [|split]]].
  - rewrite skynet_pow10. f_equal. unfold triangle. lia.
  - apply leaves_pow10.
  - apply skynet_sum_leaves.
  - apply (skynet_pow10 1 extra 0).
  - apply (skynet_pow10 5 extra 0).
Qed.

(** C9.  [skynet(offset, size)] returns for every offset and every
    [size = 10^k]: a depth bound of [k + 1] is enough and any larger one
    gives the same value; each level divides the size by ten, from
    [10^(j+1)] to [10^j], down to the base case [size == 1]. *)
Theorem skynet_terminates (k : nat) (offset : Z) :
  (∃ r, ∀ extra, skynet (1 + k + extra) offset (10 ^ Z.of_nat k) = Some r)
  ∧ (∀ j : nat, 10 ^ Z.of_nat (S j) / 10 = 10 ^ Z.of_nat j
                ∧ 10 ^ Z.of_nat j < 10 ^ Z.of_nat (S j))
  ∧ 10 ^ Z.of_nat 0 = 1.
Proof.
  split; [|split].
  - eexists. intros extra. apply skynet_pow10.
  - intros j. split; [apply child_size_pow10|].
    rewrite pow10_succ. pose proof (pow10_pos j). lia.
  - reflexivity.
Qed.

(** *** Beyond the powers of ten *)

Lemma mapM_all {A B} (f : A → option B) (P : B → Prop) (l : list A) :
  (∀ x, ∃ y, f x = Some y ∧ P y) →
  ∃ ys, mapM f l = Some ys ∧ Forall P ys ∧ length ys = length l.
Proof.
  intros Hf. induction l as [|x l (ys & Hys & Hall & Hlen)].
  - by exists [].
  - destruct (Hf x) as (y & Hy & HP). exists (y :: ys). cbn [mapM].
    rewrite Hy, Hys. simpl. repeat split; [by constructor | by rewrite Hlen].
Qed.

Lemma length_concat_uniform {A} (n : nat) (ls : list (list A)) :
  Forall (λ l, length l = n) ls → length (concat ls) = (length ls * n)%nat.
Proof.
  induction 1 as [|l ls Hl _ IH]; [done|]. simpl. rewrite length_app. lia.
Qed.

(** One level down: the size of the children of a node whose size has
    leading digit one. *)
Lemma child_size_range (k : nat) (size : Z) :
  10 ^ Z.of_nat (S k) ≤ size < 2 * 10 ^ Z.of_nat (S k) →
  size ≠ 1 ∧ 10 ^ Z.of_nat k ≤ size / 10 < 2 * 10 ^ Z.of_nat k.
Proof.
  rewrite pow10_succ. pose proof (pow10_pos k) as Hp.
  revert Hp. generalize (10 ^ Z.of_nat k). intros p Hp Hs.
  pose proof (Z.div_mod size 10 ltac:(lia)).
  pose proof (Z.mod_pos_bound size 10 ltac:(lia)). lia.
Qed.

Lemma parent_size_range (k : nat) (size : Z) :
  10 ^ Z.of_nat k ≤ size / 10 < 2 * 10 ^ Z.of_nat k →
  10 ^ Z.of_nat (S k) ≤ size < 2 * 10 ^ Z.of_nat (S k).
Proof.
  rewrite pow10_succ. pose proof (pow10_pos k) as Hp.
  revert Hp. generalize (10 ^ Z.of_nat k). intros p Hp Hs.
  pose proof (Z.div_mod size 10 ltac:(lia)).
  pose proof (Z.mod_pos_bound size 10 ltac:(lia)). lia.
Qed.

Lemma shifts_even (k : nat) (size : Z) :
  2 * (9 * 10 ^ Z.of_nat k * shifts k size / 2) = 9 * 10 ^ Z.of_nat k * shifts k size.
Proof.
  destruct k as [|k].
  - by vm_compute.
  - rewrite pow10_succ. generalize (shifts (S k) size). intros x.
    generalize (10 ^ Z.of_nat k). intros p.
    replace (9 * (10 * p) * x) with (45 * p * x * 2) by lia.
    rewrite Z.div_mul by lia. lia.
Qed.

(** The value on every size with leading digit one. *)
Lemma skynet_value (k extra : nat) (num size : Z) :
  10 ^ Z.of_nat k ≤ size < 2 * 10 ^ Z.of_nat k →
  skynet (S k + extra) num size
  = Some (10 ^ Z.of_nat k * num + 9 * 10 ^ Z.of_nat k * shifts k size / 2).
Proof.
  revert num size. induction k as [|k IH]; intros num size Hs.
  - change (10 ^ Z.of_nat 0) with 1 in *. assert (size = 1) as -> by lia.
    simpl. f_equal. change (9 * 1 * 0 / 2) with 0. lia.
  - destruct (child_size_range k size Hs) as [Hne Hc].
    change (S (S k) + extra)%nat with (S (S k + extra)).
    cbn [skynet]. case_decide; [done|]. rewrite range10. cbn [mapM].
    rewrite !IH by done. cbn [mbind option_bind mret option_ret sum foldr].
    f_equal.
    pose proof (shifts_even k (size / 10)) as He.
    pose proof (shifts_even (S k) size) as He'.
    cbn [shifts] in He' |- *. rewrite pow10_succ in *.
    set (p := 10 ^ Z.of_nat k) in *. set (c := size / 10) in *.
    set (x := shifts k c) in *.
    set (h := 9 * p * x / 2) in *. set (h' := 9 * (10 * p) * (c + x) / 2) in *.
    clearbody h h' x c p. clear -He He'.
    replace (p * (num + 0 * c) + h
             + (p * (num + 1 * c) + h
                + (p * (num + 2 * c) + h
                   + (p * (num + 3 * c) + h
                      + (p * (num + 4 * c) + h
                         + (p * (num + 5 * c) + h
                            + (p * (num + 6 * c) + h
                               + (p * (num + 7 * c) + h
                                  + (p * (num + 8 * c) + h
                                     + (p * (num + 9 * c) + h + 0))))))))))
      with (10 * p * num + 45 * (p * c) + 10 * h) by ring.
    replace (9 * (10 * p) * (c + x)) with (90 * (p * c) + 10 * (9 * p * x)) in He'
      by ring.
    lia.
Qed.

Lemma leaves_count (k extra : nat) (num size : Z) :
  10 ^ Z.of_nat k ≤ size < 2 * 10 ^ Z.of_nat k →
  ∃ ls, leaves (S k + extra) num size = Some ls ∧ length ls = (10 ^ k)%nat.
Proof.
  revert num size. induction k as [|k IH]; intros num size Hs.
  - change (10 ^ Z.of_nat 0) with 1 in *. assert (size = 1) as -> by lia.
    by exists [num].
  - destruct (child_size_range k size Hs) as [Hne Hc].
    change (S (S k) + extra)%nat with (S (S k + extra)).
    cbn [leaves]. case_decide; [done|].
    destruct (mapM_all
                (λ i, leaves (S k + extra) (num + i * (size / 10)) (size / 10))
                (λ l, length l = (10 ^ k)%nat) (seqZ 0 10))
      as (ls & -> & Hall & Hlen).
    { intros i. by apply IH. }
    exists (concat ls). split; [done|].
    rewrite (length_concat_uniform _ _ Hall), Hlen, length_seqZ.
    change (Z.to_nat 10) with 10%nat. rewrite Nat.pow_succ_r'. lia.
Qed.

(** A tree over a size of at least [10^k] is more than [k] levels deep. *)
Lemma skynet_too_deep (k : nat) (num size : Z) :
  10 ^ Z.of_nat k ≤ size → skynet k num size = None.
Proof.
  revert num size. induction k as [|k IH]; intros num size Hs; [done|].
  rewrite pow10_succ in Hs. pose proof (pow10_pos k).
  cbn [skynet]. case_decide; [lia|]. rewrite range10. cbn [mapM].
  rewrite (IH (num + 0 * (size / 10)))
    by (apply Z.div_le_lower_bound; lia).
  done.
Qed.

Lemma skynet_returns_leading_one (fuel : nat) (num size r : Z) :
  skynet fuel num size = Some r →
  ∃ k : nat, 10 ^ Z.of_nat k ≤ size < 2 * 10 ^ Z.of_nat k.
Proof.
  revert num size r. induction fuel as [|fuel IH]; intros num size r Hr; [done|].
  cbn [skynet] in Hr. case_decide as Hsize.
  - exists 0%nat. subst size. change (10 ^ Z.of_nat 0) with 1. lia.
  - rewrite range10 in Hr. cbn [mapM] in Hr.
    destruct (skynet fuel (num + 0 * (size / 10)) (size / 10)) as [r0|] eqn:H0;
      [|done].
    destruct (IH _ _ _ H0) as [k Hk]. exists (S k).
    by apply parent_size_range.
Qed.

Example skynet_15 : skynet 2 0 15 = Some 45.
Proof. reflexivity. Qed.

Example skynet_20_diverges (fuel : nat) : skynet fuel 0 20 = None.
Proof.
  destruct (skynet fuel 0 20) as [r|] eqn:Hr; [|done].
  destruct (skynet_returns_leading_one _ _ _ _ Hr) as [[|[|k]] Hk].
  - change (10 ^ Z.of_nat 0) with 1 in Hk. lia.
  - change (10 ^ Z.of_nat 1) with 10 in Hk. lia.
  - rewrite !pow10_succ in Hk. pose proof (pow10_pos k). lia.
Qed.

(** X1.  [skynet(num, size)] returns exactly on the sizes whose decimal
    writing starts with the digit one, [10^k <= size < 2 * 10^k]: the
    powers of ten, and also [11 .. 19], [101 .. 199] and so on.  On every
    other size, zero and the negative ones included, it never returns. *)
Theorem skynet_returns_iff (num size : Z) :
  (∃ fuel r, skynet fuel num size = Some r)
  ↔ ∃ k : nat, 10 ^ Z.of_nat k ≤ size < 2 * 10 ^ Z.of_nat k.
Proof.
  split.
  - intros (fuel & r & Hr). by eapply skynet_returns_leading_one.
  - intros [k Hk]. eexists (S k + 0)%nat, _. by apply skynet_value.
Qed.

Lemma sum_seqZ_double (m : Z) (n : nat) :
  2 * sum (seqZ m (Z.of_nat n)) = Z.of_nat n * (2 * m + Z.of_nat n - 1).
Proof.
  induction n as [|n IH].
  - by rewrite seqZ_nil by lia.
  - replace (Z.of_nat (S n)) with (Z.of_nat n + 1) by lia.
    rewrite seqZ_snoc, sum_snoc by lia. lia.
Qed.

Lemma shifts_le (k : nat) (size : Z) : 0 ≤ size → 9 * shifts k size ≤ size.
Proof.
  revert size. induction k as [|k IH]; intros size Hs; [simpl; lia|].
  cbn [shifts].
  pose proof (Z.div_mod size 10 ltac:(lia)).
  pose proof (Z.mod_pos_bound size 10 ltac:(lia)).
  pose proof (IH (size / 10) ltac:(apply Z.div_pos; lia)). lia.
Qed.

Lemma shifts_lt (k : nat) (size : Z) : 1 ≤ size → 9 * shifts k size ≤ size - 1.
Proof.
  revert size. induction k as [|k IH]; intros size Hs; [simpl; lia|].
  cbn [shifts].
  pose proof (Z.div_mod size 10 ltac:(lia)).
  pose proof (Z.mod_pos_bound size 10 ltac:(lia)).
  assert (0 ≤ size / 10) by (apply Z.div_pos; lia).
  destruct (decide (size / 10 = 0)) as [Hz|Hz].
  - pose proof (shifts_le k (size / 10) ltac:(lia)). lia.
  - pose proof (IH (size / 10) ltac:(lia)). lia.
Qed.

(** The value of [skynet] against the sum of the range, both doubled. *)
Lemma skynet_value_double (k : nat) (num size : Z) :
  let p := 10 ^ Z.of_nat k in
  let r := p * num + 9 * p * shifts k size / 2 in
  0 ≤ size →
  2 * r = 2 * p * num + 9 * p * shifts k size
  ∧ 2 * sum (seqZ num size) = 2 * size * num + size * (size - 1).
Proof.
  intros p r Hs. subst r. split.
  - pose proof (shifts_even k size). fold p in H. lia.
  - pose proof (sum_seqZ_double num (Z.to_nat size)) as H.
    replace (Z.of_nat (Z.to_nat size)) with size in H by lia. lia.
Qed.

Lemma shifts_pow10 (k : nat) :
  9 * 10 ^ Z.of_nat k * shifts k (10 ^ Z.of_nat k)
  = 10 ^ Z.of_nat k * (10 ^ Z.of_nat k - 1).
Proof.
  pose proof (pow10_pos k).
  pose proof (skynet_pow10 k 0 0) as Hv.
  rewrite (skynet_value k 0 0 (10 ^ Z.of_nat k)) in Hv by lia.
  injection Hv as Hv.
  pose proof (shifts_even k (10 ^ Z.of_nat k)).
  pose proof (triangle_double (10 ^ Z.of_nat k)). lia.
Qed.

(** X2.  Where it returns, [skynet(num, size)] is
    [10^k * num + 45 * 10^(k-1) * (size//10 + size//100 + ... + size//10^k)],
    the sum of the values of its leaf tasks: each level adds the offsets
    [i * (size // 10^j)].  On [size = 10^k] this is the sum of
    [num .. num + size - 1] for every offset.  On a size that is not a power
    of ten it is less than that sum for every offset [num >= 0]; the two
    agree exactly when
    [2 (size - 10^k) num = 9 * 10^k * (size//10 + ...) - size (size - 1)],
    which only a negative offset can satisfy. *)
Theorem skynet_value_any_size (k extra : nat) (num size : Z) :
  10 ^ Z.of_nat k ≤ size < 2 * 10 ^ Z.of_nat k →
  let r := 10 ^ Z.of_nat k * num + 9 * 10 ^ Z.of_nat k * shifts k size / 2 in
  skynet (1 + k + extra) num size = Some r
  ∧ skynet (1 + k + extra) num size = sum <$> leaves (1 + k + extra) num size
  ∧ (size = 10 ^ Z.of_nat k → r = sum (seqZ num size))
  ∧ (size ≠ 10 ^ Z.of_nat k → 0 ≤ num → r < sum (seqZ num size))
  ∧ (r = sum (seqZ num size)
     ↔ 2 * (size - 10 ^ Z.of_nat k) * num
       = 9 * 10 ^ Z.of_nat k * shifts k size - size * (size - 1)).
Proof.
  intros Hs r. pose proof (pow10_pos k) as Hp.
  split; [by apply skynet_value|]. split; [apply skynet_sum_leaves|].
  destruct (skynet_value_double k num size ltac:(lia)) as [Hr Hsum].
  fold r in Hr. clearbody r.
  pose proof (shifts_lt k size ltac:(lia)) as Hlt.
  pose proof (shifts_pow10 k) as Hpow.
  set (p := 10 ^ Z.of_nat k) in *.
  set (t := sum (seqZ num size)) in *. clearbody t.
  split; [|split].
  - intros ->. lia.
  - intros Hne Hnum. set (x := shifts k size) in *. clearbody x p.
    assert (9 * p * x ≤ p * (size - 1)) by nia.
    assert (p * (size - 1) < size * (size - 1)) by nia.
    assert (2 * p * num ≤ 2 * size * num) by nia.
    lia.
  - split; intros; lia.
Qed.

Lemma skynet_value_any_size_witness :
  10 ^ Z.of_nat 1 ≤ 15 < 2 * 10 ^ Z.of_nat 1
  ∧ skynet 2 7 15 = Some 115
  ∧ 115 < sum (seqZ 7 15).
Proof.
  split; [by vm_compute|].
  pose proof (skynet_value_any_size 1 0 7 15 ltac:(by vm_compute)) as H.
  exact (conj (proj1 H)
           (proj1 (proj2 (proj2 (proj2 H))) ltac:(by vm_compute) ltac:(lia))).
Defined.

(** The offset can be chosen so that the two agree on a size that is not a
    power of ten: [skynet(-12, 15)] is [-75], the sum of [-12 .. 2]. *)
Example skynet_15_at_minus_12 :
  skynet 2 (-12) 15 = Some (-75) ∧ sum (seqZ (-12) 15) = -75.
Proof. split; reflexivity. Qed.

(** X3.  The task tree of [skynet(num, size)] with [10^k <= size < 2 * 10^k]
    is exactly [k] levels deep below its root and has [10^k] leaf tasks,
    whatever the offset: a depth bound of [k] is not enough, [k + 1] is. *)
Theorem skynet_depth_and_leaves (k : nat) (num size : Z) :
  10 ^ Z.of_nat k ≤ size < 2 * 10 ^ Z.of_nat k →
  skynet k num size = None
  ∧ is_Some (skynet (S k) num size)
  ∧ ∃ ls, leaves (S k) num size = Some ls ∧ length ls = (10 ^ k)%nat.
Proof.
  intros Hs. split; [|split].
  - apply skynet_too_deep. lia.
  - pose proof (skynet_value k 0 num size Hs) as Hv.
    rewrite Nat.add_0_r in Hv. by rewrite Hv.
  - destruct (leaves_count k 0 num size Hs) as (ls & Hls & Hlen).
    rewrite Nat.add_0_r in Hls. by exists ls.
Qed.

Lemma skynet_depth_and_leaves_witness :
  10 ^ Z.of_nat 2 ≤ 100 < 2 * 10 ^ Z.of_nat 2
  ∧ skynet 2 0 100 = None.
Proof.
  split; [by vm_compute|].
  exact (proj1 (skynet_depth_and_leaves 2 0 100 ltac:(by vm_compute))).
Defined.

(** X4.  On a power of ten the offset only shifts the range:
    [skynet(num, 10^k)] is the sum of [num .. num + 10^k - 1], and its leaf
    tasks return exactly these integers, each once, in task order, so the
    ten children of a node own ten consecutive blocks. *)
Theorem skynet_offset (k extra : nat) (num : Z) :
  let S := 10 ^ Z.of_nat k in
  skynet (1 + k + extra) num S = Some (sum (seqZ num S))
  ∧ leaves (1 + k + extra) num S = Some (seqZ num S)
  ∧ sum (seqZ num S) = S * num + S * (S - 1) / 2.
Proof.
  intros S. subst S.
  assert (sum (seqZ num (10 ^ Z.of_nat k))
          = 10 ^ Z.of_nat k * num + triangle (10 ^ Z.of_nat k)) as Hsum.
  { pose proof (skynet_sum_leaves (1 + k) num (10 ^ Z.of_nat k)) as Hsl.
    pose proof (skynet_pow10 k 0 num) as Hv. pose proof (leaves_pow10 k 0 num) as Hl.
    rewrite Nat.add_0_r in Hv, Hl. change (1 + k)%nat with (S k) in Hsl.
    rewrite Hv, Hl in Hsl. simpl in Hsl. by injection Hsl as <-. }
  split; [|split].
  - rewrite Hsum. apply skynet_pow10.
  - apply leaves_pow10.
  - rewrite Hsum. done.
Qed.

End SkynetFacts.

(** ** PingPong *)

Module PingPongFacts.
Import PingPong.

Section Facts.

Variable count : Z.

Lemma pp_step_inv t s s' : inv count s → step count t s = Some s' → inv count s'.
Proof.
  intros Hinv Hstep.
  destruct Hinv, t; simpl in Hstep; unfold step_main, step_pong in Hstep;
    simpl in Hstep; repeat case_decide;
    try discriminate Hstep; injection Hstep as <-;
    try rewrite <- seqZ_snoc by lia;
    try (exfalso; lia);
    by constructor; lia.
Qed.

Lemma pp_init_inv : inv count init.
Proof. constructor. Qed.

Lemma pp_run_inv sched s s' : inv count s → run count sched s = Some s' → inv count s'.
Proof.
  revert s. induction sched as [|t sched IH]; intros s Hinv Hrun; simpl in Hrun.
  - by injection Hrun as <-.
  - destruct (step count t s) as [s1|] eqn:Hstep; [|done].
    eapply IH; [|exact Hrun]. by eapply pp_step_inv.
Qed.

Lemma pp_reachable_inv sched s : run count sched init = Some s → inv count s.
Proof. apply pp_run_inv, pp_init_inv. Qed.

(** Every step brings the end nearer. *)
Lemma pp_step_left t s s' :
  inv count s → step count t s = Some s' →
  steps_left count s' < steps_left count s.
Proof.
  intros Hinv Hstep.
  destruct Hinv, t; simpl in Hstep; unfold step_main, step_pong in Hstep;
    simpl in Hstep; repeat case_decide;
    try discriminate Hstep; injection Hstep as <-;
    unfold steps_left; simpl; lia.
Qed.

Lemma pp_steps_left_nonneg s : 0 ≤ steps_left count s.
Proof. unfold steps_left. destruct (main s), (pong s); simpl; lia. Qed.

Lemma pp_run_left sched s s' :
  inv count s → run count sched s = Some s' →
  Z.of_nat (length sched) + steps_left count s' ≤ steps_left count s.
Proof.
  revert s. induction sched as [|t sched IH]; intros s Hinv Hrun; simpl in Hrun.
  - injection Hrun as <-. simpl. lia.
  - destruct (step count t s) as [s1|] eqn:Hstep; [|done].
    pose proof (pp_step_left _ _ _ Hinv Hstep).
    pose proof (IH s1 (pp_step_inv _ _ _ Hinv Hstep) Hrun).
    cbn [length]. lia.
Qed.

(** No deadlock: a run that has not printed yet has a task that can move. *)
Lemma pp_progress s :
  inv count s → main s ≠ MDone → ∃ t s', step count t s = Some s'.
Proof.
  intros Hinv Hmain.
  destruct Hinv; try done;
    first
      [ by (exists Main; simpl; unfold step_main; simpl;
            repeat case_decide; try lia; eauto)
      | by (exists Pong; simpl; unfold step_pong; simpl;
            repeat case_decide; try lia; eauto) ].
Qed.

Lemma pp_completes s :
  inv count s → ∃ sched s', run count sched s = Some s' ∧ main s' = MDone.
Proof.
  remember (Z.to_nat (steps_left count s)) as n eqn:Hn.
  revert s Hn. induction n as [n IH] using lt_wf_ind. intros s Hn Hinv.
  destruct (decide (main s = MDone)) as [Hdone|Hrunning].
  - by exists [], s.
  - destruct (pp_progress s Hinv Hrunning) as (t & s1 & Hstep).
    pose proof (pp_step_left _ _ _ Hinv Hstep).
    pose proof (pp_steps_left_nonneg s1).
    destruct (IH (Z.to_nat (steps_left count s1)) ltac:(lia) s1 eq_refl
                (pp_step_inv _ _ _ Hinv Hstep)) as (sched & s' & Hrun & Hdone).
    exists (t :: sched), s'. simpl. by rewrite Hstep.
Qed.

(** What the shapes say about the logs and the queues. *)
Lemma inv_echo s (i : nat) v :
  inv count s → echoes s !! i = Some v →
  sent s !! i = Some v ∧ received s !! i = Some v ∧ v = Z.of_nat i.
Proof.
  intros Hinv Hi. destruct Hinv; simpl in *;
    [by rewrite lookup_nil in Hi | ..];
    apply lookup_seqZ in Hi as [-> Hlt];
    (split; [|split]); try lia; apply lookup_seqZ; lia.
Qed.

Lemma inv_final s :
  inv count s → main s = MDone →
  pong s = PongDone ∧ ping_queue s = [] ∧ pong_queue s = []
  ∧ sent s = seqZ 0 count ∧ received s = seqZ 0 count
  ∧ echoes s = seqZ 0 count.
Proof.
  intros Hinv Hmain. destruct Hinv; try done. simpl. subst i.
  assert (seqZ 0 (Z.max 0 count) = seqZ 0 count) as ->; [|done].
  destruct (decide (0 ≤ count)).
  - by rewrite Z.max_r.
  - rewrite Z.max_l by lia. by rewrite !seqZ_nil by lia.
Qed.

Lemma inv_lock_step s :
  inv count s →
  (in_flight s ≤ 1)%nat
  ∧ (length (received s) ≤ length (echoes s) + 1)%nat
  ∧ (length (sent s) ≤ length (echoes s) + 1)%nat.
Proof.
  intros Hinv. unfold in_flight, held.
  destruct Hinv; simpl; rewrite ?length_seqZ; lia.
Qed.

End Facts.

Example two_rounds_run :
  run 2 two_rounds init = Some (State [] [] MDone PongDone [0; 1] [0; 1] [0; 1]).
Proof. reflexivity. Qed.

(** [pong] cannot answer before [ping] has sent. *)
Example pong_waits : run 2 [Main; Pong] init = None.
Proof. reflexivity. Qed.

Example first_value_held : run 2 [Main; Main; Pong] init = Some first_held.
Proof. reflexivity. Qed.

(** C3.  Under every schedule of a run with [N >= 0] round trips: the
    [i]-th value the initiator reads from [pong] is the value it put on
    [ping] for round trip [i], which is [i]; when the run is over exactly
    [N] values have been read, [0 .. N-1] in order; from every state the
    run can be completed; and no run takes more than [4 N + 5] steps. *)
Theorem pingpong_echoes (N : Z) (sched : list task) (s : state) :
  0 ≤ N → run N sched init = Some s →
  (∀ (i : nat) (v : Z),
     echoes s !! i = Some v → sent s !! i = Some v ∧ v = Z.of_nat i)
  ∧ (main s = MDone →
     echoes s = seqZ 0 N ∧ sent s = seqZ 0 N
     ∧ Z.of_nat (length (echoes s)) = N)
  ∧ (∃ sched' s', run N sched' s = Some s' ∧ main s' = MDone)
  ∧ Z.of_nat (length sched) ≤ 4 * N + 5.
Proof.
  intros HN Hrun. pose proof (pp_reachable_inv _ _ _ Hrun) as Hinv.
  split; [|split; [|split]].
  - intros i v Hi. destruct (inv_echo _ _ _ _ Hinv Hi) as (? & _ & ?). done.
  - intros Hdone.
    destruct (inv_final _ _ Hinv Hdone) as (_ & _ & _ & Hs & _ & He).
    rewrite He, Hs, length_seqZ. repeat split; lia.
  - by apply pp_completes.
  - pose proof (pp_run_left _ _ _ _ (pp_init_inv N) Hrun) as Hlen.
    pose proof (pp_steps_left_nonneg N s).
    unfold steps_left in Hlen at 2. simpl in Hlen. lia.
Qed.

Lemma pingpong_echoes_witness :
  0 ≤ 2
  ∧ run 2 two_rounds init
    = Some (State [] [] MDone PongDone [0; 1] [0; 1] [0; 1])
  ∧ [0; 1] = seqZ 0 2.
Proof.
  split; [lia|]. split; [reflexivity|].
  exact (proj1 (proj1 (proj2
    (pingpong_echoes 2 two_rounds
       (State [] [] MDone PongDone [0; 1] [0; 1] [0; 1])
       ltac:(lia) eq_refl)) eq_refl)).
Defined.

(** C6.  In every reachable state of a run, at most one value is in flight:
    the two queues together hold at most one value, and none while [pong]
    holds one between its [get] and its [put].  The responder has received
    at most one value more than the initiator has got back, so it never
    has round trip [i+1]'s value before the initiator has round trip
    [i]'s echo; the initiator has sent at most one value more than it has
    got back. *)
Theorem pingpong_lock_step (N : Z) (sched : list task) (s : state) :
  run N sched init = Some s →
  (length (ping_queue s) + length (pong_queue s) ≤ 1)%nat
  ∧ (in_flight s ≤ 1)%nat
  ∧ (length (received s) ≤ length (echoes s) + 1)%nat
  ∧ (length (sent s) ≤ length (echoes s) + 1)%nat
  ∧ (∀ i : nat, is_Some (received s !! S i) → is_Some (echoes s !! i)).
Proof.
  intros Hrun. pose proof (pp_reachable_inv _ _ _ Hrun) as Hinv.
  destruct (inv_lock_step _ _ Hinv) as (Hfl & Hrecv & Hsent).
  repeat split; try done.
  - unfold in_flight in Hfl. lia.
  - intros i Hi. apply lookup_lt_is_Some in Hi. apply lookup_lt_is_Some. lia.
Qed.

Lemma pingpong_lock_step_witness :
  run 2 [Main; Main; Pong] init = Some first_held
  ∧ (in_flight first_held ≤ 1)%nat.
Proof.
  split; [reflexivity|].
  exact (proj1 (proj2
    (pingpong_lock_step 2 [Main; Main; Pong] first_held eq_refl))).
Defined.

(** *** Order *)

Lemma inv_prefixes (count : Z) (s : state) :
  inv count s →
  echoes s `prefix_of` received s ∧ received s `prefix_of` sent s.
Proof.
  intros Hinv. destruct Hinv; simpl; split; try done;
    by (exists [i]; rewrite seqZ_snoc by lia).
Qed.

(** X5.  Nothing is lost, doubled or reordered on the way: in every
    reachable state the values [ping] has got back are the first of those
    [pong] has received, which are the first of those [ping] has sent; and
    every run that ends, whatever its schedule, ends in the same state,
    with both queues empty and [0 .. N-1] sent, received and echoed (all
    three empty when [N <= 0]). *)
Theorem pingpong_no_loss (N : Z) (sched : list task) (s : state) :
  run N sched init = Some s →
  echoes s `prefix_of` received s
  ∧ received s `prefix_of` sent s
  ∧ (main s = MDone →
     s = State [] [] MDone PongDone (seqZ 0 N) (seqZ 0 N) (seqZ 0 N)).
Proof.
  intros Hrun. pose proof (pp_reachable_inv _ _ _ Hrun) as Hinv.
  destruct (inv_prefixes _ _ Hinv) as [He Hr].
  split; [done|]. split; [done|]. intros Hm.
  destruct (inv_final _ _ Hinv Hm) as (Hp & Hq1 & Hq2 & Hs & Hrc & Hec).
  destruct s; simpl in *. by subst.
Qed.

Lemma pingpong_no_loss_witness :
  run 2 [Main; Main; Pong] init = Some first_held
  ∧ echoes first_held `prefix_of` received first_held.
Proof.
  split; [reflexivity|].
  exact (proj1 (pingpong_no_loss 2 [Main; Main; Pong] first_held eq_refl)).
Defined.

End PingPongFacts.

(** ** Fanout *)

Module FanoutFacts.
Import Fanout.

Section SumWith.

Context {A : Type} (f : A → Z).

Lemma sum_with_app (l k : list A) :
  sum_with f (l ++ k) = sum_with f l + sum_with f k.
Proof. unfold sum_with. induction l as [|x l IH]; simpl; lia. Qed.

Lemma sum_with_snoc (l : list A) (x : A) :
  sum_with f (l ++ [x]) = sum_with f l + f x.
Proof. rewrite sum_with_app. unfold sum_with. simpl. lia. Qed.

Lemma sum_with_insert (l : list A) (i : nat) (x y : A) :
  l !! i = Some x → sum_with f (<[i:=y]> l) = sum_with f l - f x + f y.
Proof.
  revert i. induction l as [|z l IH]; intros [|i] Hi; simplify_eq/=.
  - unfold sum_with. simpl. lia.
  - specialize (IH i Hi). unfold sum_with in *. simpl. lia.
Qed.

Lemma sum_with_nonneg (l : list A) : (∀ x, 0 ≤ f x) → 0 ≤ sum_with f l.
Proof.
  intros Hf. unfold sum_with.
  induction l as [|x l IH]; simpl; [lia|]. specialize (Hf x). lia.
Qed.

Lemma sum_with_lookup_le (l : list A) (i : nat) (x : A) :
  (∀ x, 0 ≤ f x) → l !! i = Some x → f x ≤ sum_with f l.
Proof.
  intros Hf. revert i. induction l as [|z l IH]; intros [|i] Hi; simplify_eq/=.
  - pose proof (sum_with_nonneg l Hf). unfold sum_with in *. simpl. lia.
  - specialize (IH i Hi). specialize (Hf z). unfold sum_with in *. simpl. lia.
Qed.

End SumWith.

Lemma is_out_range pc : 0 ≤ is_out pc ≤ 1.
Proof. destruct pc; simpl; lia. Qed.

Lemma has_exited_range pc : 0 ≤ has_exited pc ≤ 1.
Proof. destruct pc; simpl; lia. Qed.

Lemma worker_left_nonneg pc : 0 ≤ worker_left pc.
Proof. destruct pc; simpl; lia. Qed.

Lemma is_out_nonneg (l : list worker_pc) : 0 ≤ sum_with is_out l.
Proof. apply sum_with_nonneg. intros pc. apply is_out_range. Qed.

Lemma is_out_le_length (l : list worker_pc) :
  sum_with is_out l ≤ Z.of_nat (length l).
Proof.
  unfold sum_with. induction l as [|pc l IH]; simpl; [lia|].
  pose proof (is_out_range pc). lia.
Qed.

(** A worker that waits for a value, or has yielded, has no sentinel yet. *)
Lemma live_worker (l : list worker_pc) (w : nat) (pc : worker_pc) :
  l !! w = Some pc → is_out pc = 0 → sum_with is_out l < Z.of_nat (length l).
Proof.
  revert w. induction l as [|z l IH]; intros [|w] Hw Hpc; simplify_eq/=.
  - pose proof (is_out_le_length l). unfold sum_with in *. simpl. lia.
  - specialize (IH w Hw Hpc). pose proof (is_out_range z).
    unfold sum_with in *. simpl. lia.
Qed.

Lemma not_all_exited (l : list worker_pc) :
  sum_with has_exited l < Z.of_nat (length l) →
  ∃ w pc, l !! w = Some pc ∧ pc ≠ Exited.
Proof.
  induction l as [|z l IH]; intros Hlt.
  - unfold sum_with in Hlt. simpl in Hlt. lia.
  - destruct (decide (z = Exited)) as [->|Hz].
    + destruct IH as (w & pc & Hw & Hpc).
      { unfold sum_with in *. simpl in *. lia. }
      by exists (S w), pc.
    + by exists 0%nat, z.
Qed.

Lemma forallb_exited (l : list worker_pc) :
  forallb is_exited l = true ↔ sum_with has_exited l = Z.of_nat (length l).
Proof.
  induction l as [|z l IH]; [done|].
  pose proof (sum_with_nonneg has_exited l (λ pc, proj1 (has_exited_range pc))).
  assert (sum_with has_exited l ≤ Z.of_nat (length l)).
  { clear. unfold sum_with. induction l as [|pc l IH]; simpl; [lia|].
    pose proof (has_exited_range pc). lia. }
  change (sum_with has_exited (z :: l)) with (has_exited z + sum_with has_exited l).
  cbn [forallb length]. rewrite andb_true_iff, IH.
  destruct z; simpl; split; try lia; intros; split; try done; lia.
Qed.

(** The head of a work queue of the invariant's shape: the oldest message
    if one is left, a sentinel otherwise. *)
Lemma work_head (a p : Z) (ns : nat) (v : Z) (q : list Z) :
  a ≤ p →
  seqZ a (p - a) ++ replicate ns (-1) = v :: q →
  (a < p ∧ v = a ∧ q = seqZ (a + 1) (p - (a + 1)) ++ replicate ns (-1))
  ∨ (a = p ∧ v = -1 ∧ ∃ ns', ns = S ns' ∧ q = replicate ns' (-1)).
Proof.
  intros Hap Hq. destruct (decide (a < p)) as [Hlt|Hge].
  - left. rewrite seqZ_cons in Hq by lia. simpl in Hq.
    injection Hq as <- <-. repeat split; try done.
    f_equal. f_equal; lia.
  - right. rewrite seqZ_nil in Hq by lia. simpl in Hq.
    destruct ns as [|ns']; simplify_eq/=.
    split; [lia|]. split; [done|]. by exists ns'.
Qed.

(** Lookups after a worker is added or moved. *)
Lemma from_option_snoc (f : worker_pc → Z) (ws : list worker_pc) (pc : worker_pc)
    (w : nat) :
  f pc = 0 →
  from_option f 0 ((ws ++ [pc]) !! w) = from_option f 0 (ws !! w).
Proof.
  intros Hpc. destruct (decide (w < length ws)%nat) as [Hlt|Hge].
  - by rewrite lookup_app_l.
  - rewrite (lookup_ge_None_2 ws) by lia.
    rewrite lookup_app_r by lia.
    by destruct (w - length ws)%nat as [|n]; simpl.
Qed.

Lemma from_option_insert (f : worker_pc → Z) (ws : list worker_pc)
    (w0 w : nat) (pc pc' : worker_pc) :
  ws !! w0 = Some pc →
  from_option f 0 (<[w0:=pc']> ws !! w)
  = if decide (w = w0) then f pc' else from_option f 0 (ws !! w).
Proof.
  intros Hw0. case_decide as Hw.
  - subst w. rewrite list_lookup_insert_eq; [done|].
    by eapply lookup_lt_Some.
  - by rewrite list_lookup_insert_ne.
Qed.

Lemma spawns_S (n : nat) : spawns (S n) = spawns n ++ [EvSpawn n].
Proof. unfold spawns. by rewrite seq_S, fmap_app. Qed.

Lemma starts_with_put_app (mid l : list event) :
  starts_with_put mid → starts_with_put (mid ++ l).
Proof. by destruct mid as [|[] mid]. Qed.

Lemma quiet_lookup s w pc : quiet s → workers s !! w = Some pc → pc = AtGet 0.
Proof.
  intros (_ & _ & Hall) Hw. rewrite Forall_lookup in Hall. by eapply Hall.
Qed.

Lemma has_exited_le_length (l : list worker_pc) :
  sum_with has_exited l ≤ Z.of_nat (length l).
Proof.
  unfold sum_with. induction l as [|pc l IH]; simpl; [lia|].
  pose proof (has_exited_range pc). lia.
Qed.

Lemma all_exited_lookup (l : list worker_pc) (w : nat) (pc : worker_pc) :
  sum_with has_exited l = Z.of_nat (length l) → l !! w = Some pc → pc = Exited.
Proof.
  revert w. induction l as [|z l IH]; intros w Hsum Hw; [done|].
  pose proof (has_exited_le_length l). pose proof (has_exited_range z).
  change (sum_with has_exited (z :: l))
    with (has_exited z + sum_with has_exited l) in Hsum.
  cbn [length] in Hsum.
  destruct w as [|w]; simplify_eq/=.
  - destruct pc; simpl in *; done || lia.
  - apply (IH w); [lia | done].
Qed.

Lemma all_exited_sums (l : list worker_pc) :
  sum_with has_exited l = Z.of_nat (length l) →
  sum_with count_of l = 0 ∧ sum_with is_out l = Z.of_nat (length l).
Proof.
  induction l as [|z l IH]; intros Hsum; [done|].
  pose proof (has_exited_le_length l). pose proof (has_exited_range z).
  change (sum_with has_exited (z :: l))
    with (has_exited z + sum_with has_exited l) in Hsum.
  cbn [length] in Hsum.
  destruct IH as [Hc Ho]; [lia|].
  unfold sum_with in *. cbn [foldr length].
  destruct z; simpl in *; lia.
Qed.

Section Preservation.

Variables N W : Z.
Hypothesis HN : 0 ≤ N.
Hypothesis HW : 0 ≤ W.

Lemma init_inv : inv N W init.
Proof.
  split; unfold consumed; simpl; try lia.
  by exists 0%nat.
Qed.

Lemma step_main_inv s s' : inv N W s → step_main N W s = Some s' → inv N W s'.
Proof.
  intros [Hsp Hpc Hcons (ns & Hwork & Hns) Hdr Hdone] Hstep.
  pose proof (is_out_nonneg (workers s)) as Hout.
  unfold step_main in Hstep. unfold consumed in *.
  destruct s as [work done ws m tr]; simpl in *.
  destruct m; simpl in *; repeat case_decide;
    [ | | | | | | destruct done as [|c d]; [done|]; rewrite sum_cons in *
    | | destruct (forallb is_exited ws); [|done] | done ];
    injection Hstep as <-;
    (split; unfold consumed; simpl;
     rewrite ?length_app, ?sum_with_snoc; simpl in *; try lia;
     try (intros Hpos; specialize (Hdr Hpos); lia)).
  all: try (exists ns; split;
              [ first [done | rewrite Hwork; do 2 f_equal; lia] | lia ]).
  - (* put a message *)
    exists ns. split; [|lia]. assert (ns = 0%nat) as -> by lia.
    rewrite Hwork. simpl. rewrite !app_nil_r.
    set (a := sum_with count_of ws + sum done + 0) in *.
    replace (i + 1 - a) with ((i - a) + 1) by lia.
    rewrite seqZ_snoc by lia. do 2 f_equal. lia.
  - (* put a sentinel *)
    exists (S ns). split; [|lia].
    by rewrite Hwork, replicate_S_end, app_assoc.
Qed.

Lemma step_worker_inv w s s' : inv N W s → step_worker w s = Some s' → inv N W s'.
Proof.
  intros [Hsp Hpc Hcons (ns & Hwork & Hns) Hdr Hdone] Hstep.
  pose proof (is_out_nonneg (workers s)) as Hout.
  unfold step_worker in Hstep.
  destruct (workers s !! w) as [pc|] eqn:Hw; [|done]. simpl in Hstep.
  unfold consumed in *. destruct s as [work done ws m tr]; simpl in *.
  pose proof (λ f y, sum_with_insert f ws w pc y Hw) as Hins.
  destruct pc as [c|c|c|].
  - (* a value arrives *)
    destruct work as [|v q]; [done|]. injection Hstep as <-.
    symmetry in Hwork.
    destruct (work_head _ _ _ _ _ (proj2 Hcons) Hwork)
      as [(Hlt & -> & ->)|(Heq & -> & ns' & -> & ->)].
    + (* a message *)
      unfold worker_recv. case_decide; [lia|].
      split; unfold consumed; simpl;
        rewrite ?length_insert, ?Hins; simpl; try done; try lia.
      exists ns. split; [|lia]. do 2 f_equal; lia.
    + (* a sentinel *)
      unfold worker_recv. case_decide; [|lia].
      split; unfold consumed; simpl;
        rewrite ?length_insert, ?Hins; simpl; try done; try lia.
      exists ns'. split; [|lia]. rewrite seqZ_nil by lia. done.
  - (* report *)
    injection Hstep as <-.
    split; unfold consumed; simpl;
      rewrite ?length_insert, ?length_app, ?sum_snoc,
        ?Hins; simpl; try done; try lia.
    exists ns. split; [|lia]. rewrite Hwork. do 2 f_equal; lia.
  - (* back from the yield *)
    injection Hstep as <-.
    split; unfold consumed; simpl;
      rewrite ?length_insert, ?Hins; simpl; try done; try lia.
    exists ns. split; [|lia]. rewrite Hwork. do 2 f_equal; lia.
  - done.
Qed.

Lemma step_inv t s s' : inv N W s → step N W t s = Some s' → inv N W s'.
Proof. destruct t; [apply step_main_inv | apply step_worker_inv]. Qed.

Lemma run_inv sched s s' : inv N W s → run N W sched s = Some s' → inv N W s'.
Proof.
  revert s. induction sched as [|t sched IH]; intros s Hinv Hrun; simpl in Hrun.
  - by injection Hrun as <-.
  - destruct (step N W t s) as [s1|] eqn:Hstep; [|done].
    eapply IH; [|exact Hrun]. by eapply step_inv.
Qed.

Lemma reachable_inv sched s : run N W sched init = Some s → inv N W s.
Proof. apply run_inv, init_inv. Qed.

(** Every step brings the end nearer. *)
Lemma step_left t s s' :
  step N W t s = Some s' → steps_left N W s' < steps_left N W s.
Proof.
  intros Hstep. unfold steps_left. destruct t as [|w]; simpl in Hstep.
  - unfold step_main in Hstep. destruct s as [work done ws m tr]; simpl in *.
    destruct m; simpl in *; repeat case_decide;
      [ | | | | | | destruct done as [|c d]; [done|]
      | | destruct (forallb is_exited ws); [|done] | done ];
      injection Hstep as <-; simpl;
      rewrite ?length_app, ?sum_with_snoc; simpl; lia.
  - unfold step_worker in Hstep.
    destruct (workers s !! w) as [pc|] eqn:Hw; [|done]. simpl in Hstep.
    destruct s as [work done ws m tr]; simpl in *.
    pose proof (λ f y, sum_with_insert f ws w pc y Hw) as Hins.
    destruct pc as [c|c|c|];
      [ destruct work as [|v q]; [done|] | | | done ];
      injection Hstep as <-; simpl; rewrite Hins;
      unfold worker_recv; try case_decide; simpl; lia.
Qed.

Lemma steps_left_nonneg s : 0 ≤ steps_left N W s.
Proof.
  unfold steps_left.
  pose proof (sum_with_nonneg worker_left (workers s) worker_left_nonneg).
  destruct (main s); simpl; lia.
Qed.

Lemma run_left sched s s' :
  run N W sched s = Some s' →
  Z.of_nat (length sched) + steps_left N W s' ≤ steps_left N W s.
Proof.
  revert s. induction sched as [|t sched IH]; intros s Hrun; simpl in Hrun.
  - injection Hrun as <-. simpl. lia.
  - destruct (step N W t s) as [s1|] eqn:Hstep; [|done].
    pose proof (step_left _ _ _ Hstep). pose proof (IH s1 Hrun).
    cbn [length]. lia.
Qed.

(** A worker that has not returned can move once the sentinels are out. *)
Lemma worker_can_move s w pc :
  inv N W s → sentinels_put W (main s) = W → spawned W (main s) = W →
  workers s !! w = Some pc → pc ≠ Exited →
  ∃ s', step_worker w s = Some s'.
Proof.
  intros [Hsp _ _ (ns & Hwork & Hns) _ _] Hsent Hspawned Hw Hpc.
  unfold step_worker. rewrite Hw. simpl.
  destruct pc as [c|c|c|]; [|by eauto..|done].
  pose proof (live_worker _ _ _ Hw eq_refl) as Hlive.
  destruct ns as [|ns']; [lia|].
  rewrite Hwork.
  destruct (seqZ _ _) as [|v q]; simpl; by eauto.
Qed.

(** No deadlock: a run that has not printed yet has a task that can move. *)
Lemma progress s :
  inv N W s → (∀ total, main s ≠ Done total) → ∃ t s', step N W t s = Some s'.
Proof.
  intros Hinv Hmain. pose proof Hinv as [Hsp _ _ _ _ Hdone].
  destruct (main s) as [k|i|j|j total|total|total] eqn:Hm.
  1-3: exists Main; simpl; unfold step_main; rewrite Hm; case_decide; by eauto.
  - destruct (decide (j < W)) as [Hj|Hj].
    + destruct (done_queue s) as [|c d] eqn:Hd.
      * destruct (not_all_exited (workers s)) as (w & pc & Hw & Hpc).
        { simpl in *. lia. }
        destruct (worker_can_move s w pc) as [s' Hs']; try done;
          try (by rewrite Hm).
        by exists (Worker w), s'.
      * exists Main. simpl. unfold step_main. rewrite Hm, Hd.
        case_decide; by eauto.
    + exists Main. simpl. unfold step_main. rewrite Hm.
      case_decide; [done | by eauto].
  - destruct (forallb is_exited (workers s)) eqn:Hall.
    + exists Main. simpl. unfold step_main. rewrite Hm, Hall. by eauto.
    + destruct (not_all_exited (workers s)) as (w & pc & Hw & Hpc).
      { pose proof (forallb_exited (workers s)) as Hiff.
        assert (sum_with has_exited (workers s) ≤ Z.of_nat (length (workers s))).
        { clear. unfold sum_with. induction (workers s) as [|pc l IH]; simpl; [lia|].
          pose proof (has_exited_range pc). lia. }
        destruct (decide (sum_with has_exited (workers s)
                          = Z.of_nat (length (workers s)))) as [Heq|]; [|lia].
        apply Hiff in Heq. congruence. }
      destruct (worker_can_move s w pc) as [s' Hs']; try done;
        try (by rewrite Hm).
      by exists (Worker w), s'.
  - by destruct (Hmain total).
Qed.

Lemma completes s :
  inv N W s → ∃ sched s', run N W sched s = Some s' ∧ finished s'.
Proof.
  remember (Z.to_nat (steps_left N W s)) as n eqn:Hn.
  revert s Hn. induction n as [n IH] using lt_wf_ind. intros s Hn Hinv.
  destruct (decide (finished s)) as [Hdone|Hrunning].
  - by exists [], s.
  - destruct (progress s Hinv) as (t & s1 & Hstep).
    { intros total Hm. apply Hrunning. by exists total. }
    pose proof (step_left _ _ _ Hstep).
    pose proof (steps_left_nonneg s1).
    destruct (IH (Z.to_nat (steps_left N W s1)) ltac:(lia) s1 eq_refl
                (step_inv _ _ _ Hinv Hstep)) as (sched & s' & Hrun & Hdone).
    exists (t :: sched), s'. simpl. by rewrite Hstep.
Qed.

Lemma init_tinv : tinv N W init.
Proof.
  by split.
Qed.

Lemma step_main_tinv s s' :
  inv N W s → tinv N W s → step_main N W s = Some s' → tinv N W s'.
Proof.
  intros [Hsp Hpc _ _ _ _] [Hputs [Hcsum Hclen] Hgot Hrep Hshape] Hstep.
  unfold step_main in Hstep. unfold shape, puts, collects in *.
  destruct s as [work done ws m tr]; simpl in *.
  destruct m as [k|i|j|j total|total|total]; simpl in *; repeat case_decide;
    [ | | | | | | destruct done as [|c d]; [done|]
    | | destruct (forallb is_exited ws); [|done] | done ];
    injection Hstep as <-;
    (split; unfold shape, puts, collects; simpl;
     rewrite ?omap_app, ?app_nil_r; simpl; rewrite ?app_nil_r;
     try done;
     try (intros w; rewrite sum_with_snoc; simpl;
          rewrite ?from_option_snoc by done; rewrite ?Z.add_0_r;
          done)).
  - (* create a worker *)
    rewrite length_app. simpl. rewrite Nat.add_1_r, spawns_S.
    destruct Hshape as [-> (Hw & Hd & Hall)]. split; [done|].
    repeat split; try done. apply Forall_app. split; [done|]. by constructor.
  - (* read the clock *)
    destruct Hshape as [-> Hquiet]. exists []. split; [done|]. split; [done|].
    by left.
  - (* put a message *)
    rewrite Hputs. simpl. rewrite !app_nil_r. by rewrite seqZ_snoc by lia.
  - destruct Hshape as (mid & -> & Htr & Hhead). exists (mid ++ [EvPut i]).
    split; [by rewrite <- app_assoc|]. split.
    + rewrite forallb_app, Htr. done.
    + right. destruct Hhead as [[-> _]|Hhead]; [done|].
      by apply starts_with_put_app.
  - (* the messages are out *)
    rewrite Hputs. simpl. rewrite app_nil_r. f_equal. lia.
  - (* put a sentinel *)
    rewrite Hputs. replace (Z.to_nat (j + 1)) with (S (Z.to_nat j)) by lia.
    by rewrite replicate_S_end, app_assoc.
  - destruct Hshape as (mid & -> & Htr & Hhead). exists (mid ++ [EvPut (-1)]).
    split; [by rewrite <- app_assoc|]. split.
    + rewrite forallb_app, Htr. done.
    + right. destruct Hhead as [[-> _]|Hhead]; [done|].
      by apply starts_with_put_app.
  - (* the sentinels are out *)
    rewrite Hputs. do 3 f_equal. lia.
  - (* collect a count *)
    rewrite sum_snoc, length_app. simpl. lia.
  - destruct Hshape as (mid & -> & Htr & Hhead). exists (mid ++ [EvCollect c]).
    split; [by rewrite <- app_assoc|]. split.
    + rewrite forallb_app, Htr. done.
    + right. destruct Hhead as [[-> (_ & ? & _)]|Hhead]; [done|].
      by apply starts_with_put_app.
  - (* all counts are in *)
    split; [done | lia].
  - (* gather *)
    intros w. rewrite sum_with_app. unfold sum_with at 2. simpl.
    rewrite Z.add_0_r. apply Hgot.
  - intros w. rewrite sum_with_app. unfold sum_with at 2. simpl.
    rewrite Z.add_0_r. apply Hrep.
  - destruct Hshape as (mid & -> & Htr & Hhead). exists mid.
    split; [by rewrite <- app_assoc|]. split; [done|].
    destruct Hhead as [[-> _]|Hhead]; [by left | by right].
Qed.

(** When [main] has printed, every worker has returned. *)
Lemma done_all_exited s total w pc :
  inv N W s → main s = Done total → workers s !! w = Some pc → pc = Exited.
Proof.
  intros [Hsp _ _ _ _ Hdone] Hm Hw. rewrite Hm in *. simpl in *.
  pose proof (has_exited_le_length (workers s)).
  eapply all_exited_lookup; [|exact Hw]. lia.
Qed.

Lemma shape_traffic s work' done' ws' e :
  shape s → ¬ quiet s → (∀ total, main s ≠ Done total) →
  length ws' = length (workers s) → is_traffic e = true →
  shape (State work' done' ws' (main s) (trace s ++ [e])).
Proof.
  intros Hshape Hq Hm Hlen He. unfold shape in *. simpl. rewrite Hlen.
  destruct (main s) as [k|i|j|j total|total|total];
    [ by destruct Hshape | .. | by destruct (Hm total) ];
    destruct Hshape as (mid & -> & Htr & Hhead); exists (mid ++ [e]);
    (split; [by rewrite <- app_assoc|]); (split; [rewrite forallb_app, Htr; simpl; by rewrite He|]);
    right; (destruct Hhead as [[_ ?]|Hhead]; [done|]);
    by apply starts_with_put_app.
Qed.

Lemma shape_silent s ws' :
  shape s → ¬ quiet s → length ws' = length (workers s) →
  shape (State (work_queue s) (done_queue s) ws' (main s) (trace s)).
Proof.
  intros Hshape Hq Hlen. unfold shape in *. simpl. rewrite Hlen.
  destruct (main s) as [k|i|j|j total|total|total];
    [ by destruct Hshape | .. | done ];
    destruct Hshape as (mid & -> & Htr & Hhead); exists mid;
    (split; [done|]); (split; [done|]);
    right; by destruct Hhead as [[_ ?]|Hhead].
Qed.

Lemma step_worker_tinv w s s' :
  inv N W s → tinv N W s → step_worker w s = Some s' → tinv N W s'.
Proof.
  intros Hinv [Hputs Hcoll Hgot Hrep Hshape] Hstep.
  unfold step_worker in Hstep.
  destruct (workers s !! w) as [pc|] eqn:Hw; [|done]. simpl in Hstep.
  assert (∀ total, main s ≠ Done total) as Hm.
  { intros total Hm.
    rewrite (done_all_exited s total w pc Hinv Hm Hw) in Hstep. done. }
  destruct Hinv as [_ _ Hcons (ns & Hwork & _) _ _].
  pose proof (λ f pc' w', from_option_insert f (workers s) w w' pc pc' Hw) as Hins.
  destruct pc as [c|c|c|]; [| | |done].
  - (* a value arrives *)
    destruct (work_queue s) as [|v q] eqn:Hq; [done|]. injection Hstep as <-.
    assert (¬ quiet s) as Hnq.
    { intros (Hempty & _). congruence. }
    assert (is_out (worker_recv c v) = (if decide (v = -1) then 1 else 0)
            ∧ has_exited (worker_recv c v) = 0) as [Hio Hex].
    { symmetry in Hwork. unfold worker_recv.
      destruct (work_head _ _ _ _ _ (proj2 Hcons) Hwork)
        as [(Hlt & -> & _)|(_ & -> & _)]; repeat case_decide; simpl; done || lia. }
    split; simpl; unfold puts, collects in *; rewrite ?omap_app, ?app_nil_r;
      try done.
    + intros w'. rewrite sum_with_snoc, Hins, Hgot. simpl.
      repeat case_decide; subst; rewrite ?Hw, ?Hio; simpl;
        try lia; exfalso; naive_solver.
    + intros w'. rewrite sum_with_snoc, Hins, Hrep. simpl.
      repeat case_decide; subst; rewrite ?Hw, ?Hex; simpl; lia.
    + apply (shape_traffic s); try done. by rewrite length_insert.
  - (* report *)
    injection Hstep as <-.
    assert (¬ quiet s) as Hnq.
    { intros Hquiet. by pose proof (quiet_lookup _ _ _ Hquiet Hw). }
    split; simpl; unfold puts, collects in *; rewrite ?omap_app, ?app_nil_r;
      try done.
    + intros w'. rewrite sum_with_snoc, Hins, Hgot. simpl.
      case_decide; subst; rewrite ?Hw; simpl; lia.
    + intros w'. rewrite sum_with_snoc, Hins, Hrep. simpl.
      repeat case_decide; subst; rewrite ?Hw; simpl; lia.
    + apply (shape_traffic s); try done. by rewrite length_insert.
  - (* back from the yield *)
    injection Hstep as <-.
    assert (¬ quiet s) as Hnq.
    { intros Hquiet. by pose proof (quiet_lookup _ _ _ Hquiet Hw). }
    split; simpl; try done.
    + intros w'. rewrite Hins, Hgot.
      case_decide; subst; rewrite ?Hw; simpl; lia.
    + intros w'. rewrite Hins, Hrep.
      case_decide; subst; rewrite ?Hw; simpl; lia.
    + apply (shape_silent s); try done. by rewrite length_insert.
Qed.

Lemma step_tinv t s s' :
  inv N W s → tinv N W s → step N W t s = Some s' → tinv N W s'.
Proof. destruct t; [apply step_main_tinv | apply step_worker_tinv]. Qed.

Lemma run_tinv sched s s' :
  inv N W s → tinv N W s → run N W sched s = Some s' → tinv N W s'.
Proof.
  revert s. induction sched as [|t sched IH]; intros s Hinv Htinv Hrun;
    simpl in Hrun.
  - by injection Hrun as <-.
  - destruct (step N W t s) as [s1|] eqn:Hstep; [|done].
    eapply IH; [| |exact Hrun]; [by eapply step_inv | by eapply step_tinv].
Qed.

Lemma reachable_tinv sched s : run N W sched init = Some s → tinv N W s.
Proof. apply run_tinv; [apply init_inv | apply init_tinv]. Qed.

End Preservation.

(** The state in which [main] prints. *)
Lemma final_state (N W : Z) (s : state) (total : Z) :
  0 ≤ N → 1 ≤ W → inv N W s → main s = Done total →
  total = N ∧ work_queue s = [] ∧ done_queue s = []
  ∧ Z.of_nat (length (workers s)) = W
  ∧ Forall (λ pc, pc = Exited) (workers s).
Proof.
  intros HN HW [Hsp _ Hcons (ns & Hwork & Hns) Hdr Hdone] Hm.
  unfold consumed in *. rewrite Hm in *. simpl in *.
  pose proof (has_exited_le_length (workers s)) as Hle.
  assert (done_queue s = []) as Hd.
  { apply nil_length_inv. lia. }
  rewrite Hd in *. simpl in *.
  destruct (all_exited_sums (workers s)) as [Hc Ho]; [lia|].
  change (sum []) with 0 in *.
  split; [lia|]. split.
  - rewrite Hwork. rewrite seqZ_nil by lia.
    assert (ns = 0%nat) as -> by lia. done.
  - repeat split; try done.
    apply Forall_lookup. intros w pc Hw.
    eapply all_exited_lookup; [|exact Hw]. lia.
Qed.

Lemma after_start_spawns (n : nat) (tr : list event) :
  after_start (spawns n ++ EvClockStart :: tr) = tr.
Proof. unfold spawns. by induction (seq 0 n). Qed.

Lemma before_stop_traffic (mid : list event) (total : Z) :
  forallb is_traffic mid = true →
  before_stop (mid ++ [EvGather; EvClockStop; EvPrint total]) = mid ++ [EvGather].
Proof.
  induction mid as [|e mid IH]; [done|]. simpl.
  intros [He Hmid]%andb_true_iff. rewrite IH by done. by destruct e.
Qed.

Lemma puts_spawns (n : nat) : puts (spawns n) = [].
Proof. unfold puts, spawns. by induction (seq 0 n). Qed.

Lemma reported_spawns (w n : nat) : sum_with (reported w) (spawns n) = 0.
Proof. unfold spawns. by induction (seq 0 n). Qed.

Example two_by_two_run : run 2 2 two_by_two init = Some two_by_two_end.
Proof. reflexivity. Qed.

(** One worker takes everything; the other only its sentinel. *)
Example one_worker_takes_all :
  main <$> run 2 2
    [ Main; Main; Main; Main; Main; Main; Main; Main; Main;
      Worker 1; Worker 1; Worker 1; Worker 1; Worker 1; Worker 1;
      Worker 0; Worker 0; Main; Main; Main; Main ] init
  = Some (Done 2).
Proof. reflexivity. Qed.

(** A worker cannot take from an empty queue, and [main] cannot collect
    before a worker has reported. *)
Example worker_waits : run 2 2 [Main; Worker 0] init = None.
Proof. reflexivity. Qed.

Example main_waits :
  run 0 1 [Main; Main; Main; Main; Main; Main] init = None.
Proof. reflexivity. Qed.

(** With no worker nothing is counted: the run ends with [total = 0]. *)
Example no_worker : main <$> run 3 0 [Main; Main; Main; Main; Main; Main; Main; Main] init
                    = Some (Done 0).
Proof. reflexivity. Qed.

(** C1.  For [N >= 0] messages and [W >= 1] workers, under every schedule:
    when [main] prints, it has put [0 .. N-1] and then [W] sentinels on the
    work queue, it has read [W] counts from the results queue, and their
    sum, the printed [total], is [N]; both queues are empty and the [W]
    workers have returned.  From every state of a run the end can be
    reached (no deadlock), and no run takes more than [4 N + 7 W + 5]
    steps. *)
Theorem fanout_total (N W : Z) (sched : list task) (s : state) :
  0 ≤ N → 1 ≤ W → run N W sched init = Some s →
  (∀ total, main s = Done total →
     total = N
     ∧ last (trace s) = Some (EvPrint N)
     ∧ puts (trace s) = seqZ 0 N ++ replicate (Z.to_nat W) (-1)
     ∧ Z.of_nat (length (collects (trace s))) = W
     ∧ sum (collects (trace s)) = N
     ∧ work_queue s = [] ∧ done_queue s = []
     ∧ Z.of_nat (length (workers s)) = W
     ∧ Forall (λ pc, pc = Exited) (workers s))
  ∧ (∃ sched' s', run N W sched' s = Some s' ∧ main s' = Done N)
  ∧ Z.of_nat (length sched) ≤ 4 * N + 7 * W + 5.
Proof.
  intros HN HW Hrun.
  pose proof (reachable_inv N W HN ltac:(lia) _ _ Hrun) as Hinv.
  pose proof (reachable_tinv N W HN ltac:(lia) _ _ Hrun) as Htinv.
  split; [|split].
  - intros total Hm.
    destruct (final_state N W s total HN HW Hinv Hm) as (-> & Hw & Hd & Hlen & Hall).
    destruct Htinv as [Hputs [Hcsum Hclen] _ _ Hshape].
    unfold shape in Hshape. rewrite Hm in *. simpl in *.
    destruct Hshape as (mid & Htr & _).
    repeat (split; [done|]). split; [|done].
    rewrite Htr.
    change [EvGather; EvClockStop; EvPrint N]
      with ([EvGather; EvClockStop] ++ [EvPrint N]).
    change (EvClockStart :: ?l) with ([EvClockStart] ++ l).
    rewrite !app_assoc. apply last_snoc.
  - destruct (completes N W HN ltac:(lia) s Hinv) as (sched' & s' & Hrun' & total & Hm).
    exists sched', s'. split; [done|].
    pose proof (run_inv N W HN ltac:(lia) _ _ _ Hinv Hrun') as Hinv'.
    by destruct (final_state N W s' total HN HW Hinv' Hm) as (-> & _).
  - pose proof (run_left N W HN ltac:(lia) _ _ _ Hrun) as Hlen.
    pose proof (steps_left_nonneg N W HN ltac:(lia) s).
    unfold steps_left in Hlen at 2. simpl in Hlen. lia.
Qed.

Lemma fanout_total_witness :
  0 ≤ 2 ∧ 1 ≤ 2 ∧ run 2 2 two_by_two init = Some two_by_two_end
  ∧ sum (collects (trace two_by_two_end)) = 2.
Proof.
  split; [lia|]. split; [lia|]. split; [reflexivity|].
  pose proof (proj1 (fanout_total 2 2 two_by_two two_by_two_end
                       ltac:(lia) ltac:(lia) eq_refl) 2 eq_refl) as H.
  exact (proj1 (proj2 (proj2 (proj2 (proj2 H))))).
Defined.

Example one_sentinel_run : run 0 1 one_sentinel init = Some one_sentinel_end.
Proof. reflexivity. Qed.

Example one_by_one_run : run 1 1 one_by_one init = Some one_by_one_end.
Proof. reflexivity. Qed.

(** C4, as the spec has it, fails: the creation of the workers is not
    inside the timed window.  In the run with no message and one worker
    the clock is first read after [EvSpawn 0], and the events between the
    two readings do not contain it. *)
Lemma spawn_outside_timed_window :
  run 0 1 one_sentinel init = Some one_sentinel_end
  ∧ trace one_sentinel_end
    = [EvSpawn 0; EvClockStart] ++ timed_window (trace one_sentinel_end)
      ++ [EvClockStop; EvPrint 0]
  ∧ EvSpawn 0 ∉ timed_window (trace one_sentinel_end).
Proof.
  split; [reflexivity|]. split; [reflexivity|].
  intros Hin. vm_compute in Hin.
  repeat (apply elem_of_cons in Hin as [Hin|Hin]; [discriminate Hin|]).
  by apply elem_of_nil in Hin.
Qed.

(** C4, amended.  Under every schedule, when [main] prints: the trace is
    the creation of the [W] workers, then the first reading of the clock,
    then the timed window, then the second reading and the printing.  The
    window holds every [put] of [main] ([0 .. N-1], then [W] sentinels)
    and opens with the first of them, holds the return of every worker,
    and ends with the gathering; it holds nothing but queue traffic before
    that, so no creation of a worker. *)
Theorem fanout_timed_window (N W : Z) (sched : list task) (s : state) (total : Z) :
  0 ≤ N → 0 ≤ W → run N W sched init = Some s → main s = Done total →
  ∃ mid,
    trace s = spawns (Z.to_nat W) ++ [EvClockStart] ++ mid
              ++ [EvGather; EvClockStop; EvPrint total]
    ∧ timed_window (trace s) = mid ++ [EvGather]
    ∧ forallb is_traffic mid = true
    ∧ puts mid = seqZ 0 N ++ replicate (Z.to_nat W) (-1)
    ∧ (mid = [] ∨ starts_with_put mid)
    ∧ (∀ w, (w < Z.to_nat W)%nat → sum_with (reported w) mid = 1)
    ∧ (∀ w, EvSpawn w ∉ timed_window (trace s)).
Proof.
  intros HN HW Hrun Hm.
  pose proof (reachable_inv N W HN HW _ _ Hrun) as Hinv.
  destruct (reachable_tinv N W HN HW _ _ Hrun) as [Hputs _ _ Hrep Hshape].
  pose proof (done_all_exited N W s total) as Hex.
  destruct Hinv as [Hsp _ _ _ _ _].
  unfold shape in Hshape. rewrite Hm in *. simpl in *.
  destruct Hshape as (mid & Htr & Hmid & Hhead).
  assert (length (workers s) = Z.to_nat W) as Hlen by lia.
  rewrite Hlen in Htr. exists mid.
  assert (timed_window (trace s) = mid ++ [EvGather]) as Hwin.
  { unfold timed_window. rewrite Htr, after_start_spawns.
    by apply before_stop_traffic. }
  split; [done|]. split; [done|]. split; [done|]. split; [|split; [done|split]].
  - rewrite <- Hputs, Htr. unfold puts.
    rewrite omap_app. fold (puts (spawns (Z.to_nat W))).
    rewrite puts_spawns. simpl. rewrite omap_app. simpl. by rewrite app_nil_r.
  - intros w Hw.
    destruct (lookup_lt_is_Some_2 (workers s) w ltac:(lia)) as [pc Hpc].
    pose proof (Hrep w) as Hr. rewrite Hpc in Hr. simpl in Hr.
    assert (pc = Exited) as ->.
    { eapply Hex; try done. by apply reachable_inv with sched. }
    rewrite Htr, sum_with_app, reported_spawns in Hr.
    change (EvClockStart :: ?l) with ([EvClockStart] ++ l) in Hr.
    rewrite !sum_with_app in Hr. unfold sum_with at 1 3 in Hr.
    simpl in Hr. lia.
  - intros w Hin. rewrite Hwin in Hin.
    apply elem_of_app in Hin as [Hin|Hin].
    + apply list_elem_of_In in Hin.
      pose proof (proj1 (forallb_forall _ _) Hmid _ Hin). done.
    + apply elem_of_cons in Hin as [Hin|Hin]; [done|].
      by apply elem_of_nil in Hin.
Qed.

Lemma fanout_timed_window_witness :
  0 ≤ 1 ∧ 0 ≤ 1 ∧ run 1 1 one_by_one init = Some one_by_one_end
  ∧ main one_by_one_end = Done 1
  ∧ ∃ mid, timed_window (trace one_by_one_end) = mid ++ [EvGather].
Proof.
  split; [lia|]. split; [lia|]. split; [reflexivity|]. split; [reflexivity|].
  destruct (fanout_timed_window 1 1 one_by_one one_by_one_end 1
              ltac:(lia) ltac:(lia) eq_refl eq_refl) as (mid & _ & Hwin & _).
  by exists mid.
Defined.

(** What a worker does with the head of the work queue, in any state:
    two steps of its own take it either through its report to its return,
    or through the yield back to [get] with one more counted. *)
Lemma worker_takes (s : state) (w : nat) (c v : Z) (q : list Z) :
  workers s !! w = Some (AtGet c) → work_queue s = v :: q →
  ∃ s1 s2,
    step_worker w s = Some s1 ∧ step_worker w s1 = Some s2
    ∧ work_queue s2 = q
    ∧ if decide (v < 0) then
        workers s1 !! w = Some (AtPut c)
        ∧ workers s2 !! w = Some Exited
        ∧ done_queue s2 = done_queue s ++ [c]
        ∧ step_worker w s2 = None
      else
        workers s1 !! w = Some (AtSleep (c + 1))
        ∧ workers s2 !! w = Some (AtGet (c + 1))
        ∧ done_queue s2 = done_queue s.
Proof.
  intros Hw Hq. pose proof (lookup_lt_Some _ _ _ Hw) as Hlt.
  set (s1 := State q (done_queue s) (<[w:=worker_recv c v]> (workers s))
                   (main s) (trace s ++ [EvGot w v])).
  assert (step_worker w s = Some s1) as H1.
  { unfold step_worker. by rewrite Hw, Hq. }
  assert (workers s1 !! w = Some (worker_recv c v)) as Hw1.
  { by apply list_lookup_insert_eq. }
  exists s1. unfold worker_recv in *. case_decide.
  - eexists. split; [done|]. unfold step_worker at 1. rewrite Hw1. simpl.
    split; [done|]. simpl. split; [done|]. split; [done|].
    assert (<[w:=Exited]> (<[w:=AtPut c]> (workers s)) !! w = Some Exited) as Hw2.
    { apply list_lookup_insert_eq. by rewrite length_insert. }
    split; [done|]. split; [done|].
    unfold step_worker. simpl. by rewrite Hw2.
  - eexists. split; [done|]. unfold step_worker at 1. rewrite Hw1. simpl.
    split; [done|]. simpl. split; [done|]. split; [done|].
    split; [|done]. apply list_lookup_insert_eq. by rewrite length_insert.
Qed.

(** C5, as the spec has it, fails at the worker: a value that is not the
    sentinel [-1] can stop it.  A worker that gets [-2] does not count it:
    it reports its count and returns. *)
Lemma negative_message_stops_worker :
  -2 ≠ -1
  ∧ worker_recv 0 (-2) ≠ AtSleep 1
  ∧ run 0 1 [Worker 0; Worker 0] stray_negative
    = Some (State [] [0] [Exited] (Collecting 0 0)
                  [EvGot 0 (-2); EvReport 0 0]).
Proof. split; [lia|]. split; [discriminate|reflexivity]. Qed.

(** C5, amended.  In the harness, under every schedule, [main] puts
    [0 .. N-1] and then the sentinel [-1], so every value a worker gets is a
    message in [0 .. N-1], which it counts before it goes on, or [-1], on
    which it puts its count on the results queue and returns.  The worker
    itself tests the sign, in any state: on a value [>= 0] it counts one
    more and goes on, on a value [< 0] it reports and returns.  A worker
    has taken exactly one sentinel once it reports or has returned, and
    none before. *)
Theorem fanout_sentinel_protocol (N W : Z) (sched : list task) (s : state) :
  0 ≤ N → 0 ≤ W → run N W sched init = Some s →
  (∃ i j, 0 ≤ i ≤ N ∧ 0 ≤ j ≤ W
          ∧ puts (trace s) = seqZ 0 i ++ replicate (Z.to_nat j) (-1))
  ∧ Forall (λ v, v = -1 ∨ 0 ≤ v < N) (work_queue s)
  ∧ (∀ w c v q,
       workers s !! w = Some (AtGet c) → work_queue s = v :: q →
       (v = -1 ∨ 0 ≤ v < N)
       ∧ ∃ s1 s2,
           step_worker w s = Some s1 ∧ step_worker w s1 = Some s2
           ∧ work_queue s2 = q
           ∧ if decide (v = -1) then
               workers s1 !! w = Some (AtPut c)
               ∧ workers s2 !! w = Some Exited
               ∧ done_queue s2 = done_queue s ++ [c]
               ∧ step_worker w s2 = None
             else
               workers s1 !! w = Some (AtSleep (c + 1))
               ∧ workers s2 !! w = Some (AtGet (c + 1))
               ∧ done_queue s2 = done_queue s)
  ∧ (∀ (s0 : state) w c v q,
       workers s0 !! w = Some (AtGet c) → work_queue s0 = v :: q →
       ∃ s1 s2,
         step_worker w s0 = Some s1 ∧ step_worker w s1 = Some s2
         ∧ work_queue s2 = q
         ∧ if decide (v < 0) then
             workers s1 !! w = Some (AtPut c)
             ∧ workers s2 !! w = Some Exited
             ∧ done_queue s2 = done_queue s0 ++ [c]
             ∧ step_worker w s2 = None
           else
             workers s1 !! w = Some (AtSleep (c + 1))
             ∧ workers s2 !! w = Some (AtGet (c + 1))
             ∧ done_queue s2 = done_queue s0)
  ∧ (∀ w pc,
       workers s !! w = Some pc →
       sum_with (got_sentinel w) (trace s)
       = match pc with AtPut _ | Exited => 1 | AtGet _ | AtSleep _ => 0 end).
Proof.
  intros HN HW Hrun.
  destruct (reachable_inv N W HN HW _ _ Hrun)
    as [_ Hpc Hcons (ns & Hwork & _) _ _].
  destruct (reachable_tinv N W HN HW _ _ Hrun) as [Hputs _ Hgot _ _].
  assert (produced N (main s) ≤ N) as Hp.
  { destruct (main s); simpl in *; lia. }
  assert (Forall (λ v, v = -1 ∨ 0 ≤ v < N) (work_queue s)) as Hall.
  { rewrite Hwork. apply Forall_app. split.
    - apply Forall_seqZ. intros v Hv. right. lia.
    - apply Forall_replicate. by left. }
  split; [|split; [done|split; [|split]]].
  - exists (produced N (main s)), (sentinels_put W (main s)).
    split; [|split; [|done]]; destruct (main s); simpl in *; lia.
  - intros w c v q Hw Hq. rewrite Hq in Hall.
    apply Forall_cons in Hall as [Hv _]. split; [done|].
    destruct (worker_takes s w c v q Hw Hq) as (s1 & s2 & H1 & H2 & Hq2 & Hrest).
    exists s1, s2. repeat (split; [done|]).
    repeat case_decide; try done; lia.
  - apply worker_takes.
  - intros w pc Hw. rewrite Hgot, Hw. by destruct pc.
Qed.

Lemma fanout_sentinel_protocol_witness :
  0 ≤ 1 ∧ 0 ≤ 1 ∧ run 1 1 one_by_one init = Some one_by_one_end
  ∧ sum_with (got_sentinel 0) (trace one_by_one_end) = 1.
Proof.
  split; [lia|]. split; [lia|]. split; [reflexivity|].
  exact (proj2 (proj2 (proj2 (proj2
    (fanout_sentinel_protocol 1 1 one_by_one one_by_one_end
       ltac:(lia) ltac:(lia) eq_refl)))) 0%nat Exited eq_refl).
Defined.

(** C10.  The worker's test is on the sign: whatever negative value it
    gets, [-1] or another, it puts its count on the results queue and
    returns; it takes nothing more from the work queue. *)
Theorem worker_sign_test (s : state) (w : nat) (c v : Z) (q : list Z) :
  workers s !! w = Some (AtGet c) → work_queue s = v :: q → v < 0 →
  worker_recv c v = AtPut c
  ∧ ∃ s1 s2,
      step_worker w s = Some s1 ∧ workers s1 !! w = Some (AtPut c)
      ∧ step_worker w s1 = Some s2 ∧ workers s2 !! w = Some Exited
      ∧ done_queue s2 = done_queue s ++ [c] ∧ work_queue s2 = q
      ∧ step_worker w s2 = None.
Proof.
  intros Hw Hq Hv. split.
  - unfold worker_recv. by case_decide.
  - destruct (worker_takes s w c v q Hw Hq) as (s1 & s2 & H1 & H2 & Hq2 & Hrest).
    case_decide; [|done]. destruct Hrest as (? & ? & ? & ?).
    by exists s1, s2.
Qed.

Lemma worker_sign_test_witness :
  -7 < 0
  ∧ worker_recv 5 (-7) = AtPut 5.
Proof.
  split; [lia|].
  exact (proj1 (worker_sign_test (State [-7; 3] [] [AtGet 5] (Collecting 0 0) [])
                  0 5 (-7) [3] eq_refl eq_refl ltac:(lia))).
Defined.

(** *** Order and bounds *)

Section Conservation.

Variables N W : Z.
Hypothesis HN : 0 ≤ N.
Hypothesis HW : 0 ≤ W.

Lemma step_taken t s s' :
  inv N W s → taken_in_order s → step N W t s = Some s' → taken_in_order s'.
Proof.
  intros [Hsp Hpc Hcons (ns & Hwork & Hns) Hdr Hdone] Htk Hstep.
  pose proof (is_out_nonneg (workers s)) as Hout.
  unfold taken_in_order, taken, consumed in *.
  destruct s as [work done ws m tr]; simpl in *. destruct t as [|w]; simpl in Hstep.
  - unfold step_main in Hstep. simpl in Hstep.
    destruct m as [k|i|j|j total|total|total]; simpl in *; repeat case_decide;
      [ | | | | | | destruct done as [|c d]; [done|]; rewrite sum_cons in *
      | | destruct (forallb is_exited ws); [|done] | done ];
      injection Hstep as <-; simpl;
      rewrite ?omap_app, ?sum_with_snoc; simpl; rewrite ?app_nil_r, ?Z.add_0_r;
      try done.
    all: rewrite Htk; do 2 f_equal; lia.
  - unfold step_worker in Hstep. simpl in Hstep.
    destruct (ws !! w) as [pc|] eqn:Hw; [|done]. simpl in Hstep.
    pose proof (λ f y, sum_with_insert f ws w pc y Hw) as Hins.
    destruct pc as [c|c|c|]; [| | |done].
    + destruct work as [|v q]; [done|]. injection Hstep as <-. simpl.
      symmetry in Hwork.
      destruct (work_head _ _ _ _ _ (proj2 Hcons) Hwork)
        as [(Hlt & -> & _)|(Heq & -> & _)];
        unfold worker_recv; case_decide; try lia;
        rewrite omap_app, !Hins, Htk; simpl.
      * assert (sum_with is_out ws = 0) as -> by lia. simpl.
        rewrite !app_nil_r.
        replace (sum_with count_of ws - c + (c + 1) + sum done + total_of m)
          with (sum_with count_of ws + sum done + total_of m + 1) by lia.
        by rewrite seqZ_snoc by lia.
      * replace (Z.to_nat (sum_with is_out ws - 0 + 1))
          with (S (Z.to_nat (sum_with is_out ws))) by lia.
        rewrite replicate_S_end, app_assoc. do 3 f_equal. lia.
    + injection Hstep as <-. simpl.
      rewrite omap_app, !Hins, Htk, sum_snoc. simpl. rewrite app_nil_r.
      f_equal; [f_equal; lia | do 2 f_equal; lia].
    + injection Hstep as <-. simpl. rewrite !Hins, Htk. simpl.
      f_equal; [f_equal; lia | do 2 f_equal; lia].
Qed.

Lemma reachable_taken sched s :
  run N W sched init = Some s → taken_in_order s.
Proof.
  assert (∀ s0, inv N W s0 → taken_in_order s0 →
                run N W sched s0 = Some s → taken_in_order s) as Hgen.
  { induction sched as [|t sched IH]; intros s0 Hinv Htk Hrun; simpl in Hrun.
    - by injection Hrun as <-.
    - destruct (step N W t s0) as [s1|] eqn:Hstep; [|done].
      apply (IH s1); [by eapply step_inv | by eapply step_taken | done]. }
  apply Hgen; [by apply init_inv | done].
Qed.

(** What is put is what is taken followed by what still waits. *)
Lemma puts_taken_work sched s :
  run N W sched init = Some s →
  puts (trace s) = taken (trace s) ++ work_queue s.
Proof.
  intros Hrun. pose proof (reachable_taken _ _ Hrun) as Htk.
  destruct (reachable_inv N W HN HW _ _ Hrun)
    as [_ Hpc Hcons (ns & Hwork & Hns) Hdr _].
  destruct (reachable_tinv N W HN HW _ _ Hrun) as [Hputs _ _ _ _].
  pose proof (is_out_nonneg (workers s)) as Hout.
  rewrite Hputs, Htk, Hwork. unfold taken_in_order in Htk.
  set (a := consumed s) in *. set (o := sum_with is_out (workers s)) in *.
  replace (Z.to_nat (sentinels_put W (main s))) with (Z.to_nat o + ns)%nat by lia.
  rewrite replicate_add.
  destruct (decide (0 < o)) as [Ho|Ho].
  - rewrite (Hdr Ho). rewrite (seqZ_nil _ (_ - _)) by lia. simpl.
    by rewrite <- !app_assoc.
  - assert (o = 0) as -> by lia. simpl.
    replace (produced N (main s)) with (a + (produced N (main s) - a)) at 1 by lia.
    rewrite seqZ_app by lia. by rewrite <- !app_assoc.
Qed.

End Conservation.

(** X7.  The work queue neither loses, doubles nor reorders: in every
    reachable state the values [main] has put are the values the workers
    have taken, in the order they were taken, followed by the values still
    on the queue.  The values taken are [0, 1, 2, ...] in increasing order
    and then only sentinels: no worker takes a sentinel while a message is
    left.  When [main] prints, with at least one worker, everything put
    has been taken. *)
Theorem fanout_fifo (N W : Z) (sched : list task) (s : state) :
  0 ≤ N → 0 ≤ W → run N W sched init = Some s →
  puts (trace s) = taken (trace s) ++ work_queue s
  ∧ (∃ (c : Z) (o : nat),
       0 ≤ c ≤ N ∧ Z.of_nat o ≤ W
       ∧ taken (trace s) = seqZ 0 c ++ replicate o (-1)
       ∧ (0 < o → c = N)%nat)
  ∧ (1 ≤ W → ∀ total, main s = Done total →
     taken (trace s) = seqZ 0 N ++ replicate (Z.to_nat W) (-1)).
Proof.
  intros HN HW Hrun.
  pose proof (puts_taken_work N W HN HW _ _ Hrun) as Hconc.
  pose proof (reachable_taken N W HN HW _ _ Hrun) as Htk.
  pose proof (reachable_inv N W HN HW _ _ Hrun) as Hinv.
  destruct (reachable_tinv N W HN HW _ _ Hrun) as [Hputs _ _ _ _].
  pose proof (is_out_nonneg (workers s)) as Hout.
  split; [done|]. split.
  - destruct Hinv as [_ Hpc Hcons (ns & _ & Hns) Hdr _].
    assert (produced N (main s) ≤ N ∧ sentinels_put W (main s) ≤ W) as [Hp Hs].
    { destruct (main s); simpl in *; lia. }
    exists (consumed s), (Z.to_nat (sum_with is_out (workers s))).
    split; [lia|]. split; [lia|]. split; [done|].
    intros Ho. assert (0 < sentinels_put W (main s)) as Hsent by lia.
    rewrite (Hdr ltac:(lia)). destruct (main s); simpl in *; lia.
  - intros HW1 total Hm.
    destruct (final_state N W s total HN HW1 Hinv Hm) as (_ & Hwork & _).
    rewrite Hwork, app_nil_r in Hconc. rewrite <- Hconc, Hputs, Hm. done.
Qed.

Lemma fanout_fifo_witness :
  0 ≤ 2 ∧ 0 ≤ 2 ∧ run 2 2 two_by_two init = Some two_by_two_end
  ∧ puts (trace two_by_two_end)
    = taken (trace two_by_two_end) ++ work_queue two_by_two_end.
Proof.
  split; [lia|]. split; [lia|]. split; [reflexivity|].
  exact (proj1 (fanout_fifo 2 2 two_by_two two_by_two_end
                  ltac:(lia) ltac:(lia) eq_refl)).
Defined.


(** An event that is not about worker [w] leaves its account as it is. *)
Lemma counts_right_frame (s s' : state) (w : nat) (e : event) :
  workers s' !! w = workers s !! w → trace s' = trace s ++ [e] →
  took w e = 0 → (∀ c, e ≠ EvReport w c) →
  counts_right s w → counts_right s' w.
Proof.
  intros Hw Htr He Hne. unfold counts_right. rewrite Hw, Htr, sum_with_snoc, He.
  rewrite Z.add_0_r.
  assert (∀ c, EvReport w c ∈ trace s ++ [e] ↔ EvReport w c ∈ trace s) as Hin.
  { intros c. rewrite elem_of_app, list_elem_of_singleton.
    split; [intros [?|Heq]; [done | by destruct (Hne c)] | by left]. }
  destruct (workers s !! w) as [[]|]; intros [H1 H2];
    (split;
     [ done || (destruct H1 as [c0 H1]; exists c0; by apply Hin)
     | intros c0 Hc0; apply Hin in Hc0; by apply (H2 c0) ]).
Qed.

Lemma counts_right_quiet (s s' : state) (w : nat) :
  workers s' !! w = workers s !! w → trace s' = trace s →
  counts_right s w → counts_right s' w.
Proof. intros Hw Htr. unfold counts_right. by rewrite Hw, Htr. Qed.

Lemma step_counts_right (N W : Z) t s s' :
  (∀ w, counts_right s w) → step N W t s = Some s' → ∀ w, counts_right s' w.
Proof.
  intros Hall Hstep w. specialize (Hall w). destruct t as [|w0]; simpl in Hstep.
  - unfold step_main in Hstep.
    destruct (main s) as [k|i|j|j total|total|total]; repeat case_decide;
      [ | | | | | | destruct (done_queue s) as [|c d]; [done|]
      | | destruct (forallb is_exited (workers s)); [|done] | done ];
      injection Hstep as <-;
      try (by apply (counts_right_quiet s));
      try (by eapply (counts_right_frame s); [done|done|done|done|done]).
    + (* a worker is created *)
      destruct (decide (w = length (workers s))) as [->|Hw].
      * unfold counts_right in *. simpl.
        rewrite lookup_ge_None_2 in Hall by lia.
        rewrite lookup_app_r, Nat.sub_diag by lia. simpl.
        rewrite sum_with_snoc. simpl. destruct Hall as [-> Hno].
        split; [done|]. intros c Hin.
        apply elem_of_app in Hin as [Hin|Hin]; [by apply (Hno c)|].
        by apply list_elem_of_singleton in Hin.
      * eapply (counts_right_frame s); try done. simpl.
        destruct (decide (w < length (workers s))%nat).
        -- by rewrite lookup_app_l.
        -- rewrite (lookup_ge_None_2 (workers s)) by lia.
           apply lookup_ge_None_2. rewrite length_app. simpl. lia.
    + (* gather, clock, print: three events *)
      unfold counts_right in *. simpl.
      assert (∀ c, EvReport w c ∈ trace s ++ [EvGather; EvClockStop; EvPrint total]
                   ↔ EvReport w c ∈ trace s) as Hin.
      { intros c. rewrite elem_of_app, !elem_of_cons, elem_of_nil.
        split; [intros [?|[?|[?|[?|[]]]]]; done | by left]. }
      rewrite sum_with_app. unfold sum_with at 2. simpl. rewrite Z.add_0_r.
      revert Hall.
      destruct (workers s !! w) as [[]|]; intros [H1 H2];
        (split;
         [ done || (destruct H1 as [c0 H1]; exists c0; by apply Hin)
         | intros c0 Hc0; apply Hin in Hc0; by apply (H2 c0) ]).
  - unfold step_worker in Hstep.
    destruct (workers s !! w0) as [pc|] eqn:Hw0; [|done]. simpl in Hstep.
    pose proof (lookup_lt_Some _ _ _ Hw0) as Hlt.
    destruct (decide (w = w0)) as [->|Hw].
    + (* the worker that moves *)
      unfold counts_right in *. rewrite Hw0 in Hall.
      destruct pc as [c|c|c|]; [| | |done].
      * destruct (work_queue s) as [|v q]; [done|]. injection Hstep as <-. simpl.
        rewrite list_lookup_insert_eq by done. rewrite sum_with_snoc. simpl.
        destruct Hall as [Hc Hno].
        assert (∀ c', EvReport w0 c' ∉ trace s ++ [EvGot w0 v]) as Hno'.
        { intros c' Hin. apply elem_of_app in Hin as [Hin|Hin]; [by apply (Hno c')|].
          by apply list_elem_of_singleton in Hin. }
        simpl in Hc. unfold worker_recv. repeat case_decide; simpl;
          first [ split; [lia|done]
                | exfalso; match goal with H : ¬ (_ ∧ _) |- _ => apply H end;
                  split; [done|lia]
                | exfalso; match goal with H : _ ∧ _ |- _ => destruct H end; lia ].
      * injection Hstep as <-. simpl.
        rewrite list_lookup_insert_eq by done. rewrite sum_with_snoc. simpl.
        destruct Hall as [Hc Hno]. split.
        -- exists c. apply elem_of_app. right. by apply list_elem_of_singleton.
        -- intros c' Hin. apply elem_of_app in Hin as [Hin|Hin];
             [by destruct (Hno c')|].
           apply list_elem_of_singleton in Hin. injection Hin as ->.
           simpl in Hc. lia.
      * injection Hstep as <-. simpl.
        by rewrite list_lookup_insert_eq by done.
    + (* another worker moves *)
      destruct pc as [c|c|c|]; [| | |done].
      * destruct (work_queue s) as [|v q]; [done|]. injection Hstep as <-.
        eapply (counts_right_frame s); try done; simpl.
        -- by rewrite list_lookup_insert_ne.
        -- case_decide as Hd; [by destruct Hd | done].
      * injection Hstep as <-.
        eapply (counts_right_frame s); try done; simpl.
        -- by rewrite list_lookup_insert_ne.
        -- intros c' [= <- _]. done.
      * injection Hstep as <-.
        apply (counts_right_quiet s); try done. simpl.
        by rewrite list_lookup_insert_ne.
Qed.

Lemma reachable_counts_right (N W : Z) sched s :
  run N W sched init = Some s → ∀ w, counts_right s w.
Proof.
  assert (∀ s0, (∀ w, counts_right s0 w) →
                run N W sched s0 = Some s → ∀ w, counts_right s w) as Hgen.
  { induction sched as [|t sched IH]; intros s0 Hall Hrun; simpl in Hrun.
    - by injection Hrun as <-.
    - destruct (step N W t s0) as [s1|] eqn:Hstep; [|done].
      apply (IH s1); [by eapply step_counts_right | done]. }
  apply Hgen. intros w. unfold counts_right. simpl.
  split; [done|]. intros c Hin. by apply elem_of_nil in Hin.
Qed.

(** X8.  A worker's count is the number of messages it has taken: under
    every schedule, a worker that has not returned holds as [count] the
    number of values [>= 0] it got from the work queue, and every count put
    on the results queue is the number of messages its worker took. *)
Theorem fanout_counts (N W : Z) (sched : list task) (s : state) :
  run N W sched init = Some s →
  (∀ w pc, workers s !! w = Some pc → pc ≠ Exited →
           count_of pc = sum_with (took w) (trace s))
  ∧ (∀ w c, EvReport w c ∈ trace s → c = sum_with (took w) (trace s))
  ∧ (∀ w, workers s !! w = Some Exited → ∃ c, EvReport w c ∈ trace s).
Proof.
  intros Hrun. pose proof (reachable_counts_right N W sched s Hrun) as Hall.
  split; [|split].
  - intros w pc Hw Hpc. specialize (Hall w). unfold counts_right in Hall.
    rewrite Hw in Hall. by destruct pc; [destruct Hall..|].
  - intros w c Hin. specialize (Hall w). unfold counts_right in Hall.
    destruct (workers s !! w) as [[]|]; destruct Hall as [H1 H2];
      by (apply H2 || destruct (H2 c)).
  - intros w Hw. specialize (Hall w). unfold counts_right in Hall.
    rewrite Hw in Hall. by destruct Hall.
Qed.

Lemma fanout_counts_witness :
  run 2 2 two_by_two init = Some two_by_two_end
  ∧ 1 = sum_with (took 1) (trace two_by_two_end).
Proof.
  split; [reflexivity|].
  refine (proj1 (proj2 (fanout_counts 2 2 two_by_two two_by_two_end eq_refl))
            1%nat 1 _).
  by vm_compute; repeat (constructor; try done).
Defined.

(** X9.  The queues stay small although they are unbounded: under every
    schedule the work queue never holds more than [N + W] values, the
    results queue never more than [W], and there are never more than [W]
    workers. *)
Theorem fanout_queue_bounds (N W : Z) (sched : list task) (s : state) :
  0 ≤ N → 0 ≤ W → run N W sched init = Some s →
  Z.of_nat (length (work_queue s)) ≤ N + W
  ∧ Z.of_nat (length (done_queue s)) ≤ W
  ∧ Z.of_nat (length (workers s)) ≤ W.
Proof.
  intros HN HW Hrun.
  destruct (reachable_inv N W HN HW _ _ Hrun)
    as [Hsp Hpc Hcons (ns & Hwork & Hns) _ Hdone].
  pose proof (is_out_nonneg (workers s)).
  pose proof (has_exited_le_length (workers s)).
  rewrite Hwork, length_app, length_seqZ, length_replicate.
  destruct (main s); simpl in *; lia.
Qed.

Lemma fanout_queue_bounds_witness :
  0 ≤ 2 ∧ 0 ≤ 2
  ∧ run 2 2 [Main; Main; Main; Main; Main] init
    = Some (State [0; 1] [] [AtGet 0; AtGet 0] (Producing 2)
                  [EvSpawn 0; EvSpawn 1; EvClockStart; EvPut 0; EvPut 1])
  ∧ Z.of_nat (length [0; 1]) ≤ 2 + 2.
Proof.
  split; [lia|]. split; [lia|]. split; [reflexivity|].
  exact (proj1 (fanout_queue_bounds 2 2 [Main; Main; Main; Main; Main]
                  (State [0; 1] [] [AtGet 0; AtGet 0] (Producing 2)
                         [EvSpawn 0; EvSpawn 1; EvClockStart; EvPut 0; EvPut 1])
                  ltac:(lia) ltac:(lia) eq_refl)).
Defined.

(** A schedule run in two parts. *)
Lemma run_app (N W : Z) (sched sched' : list task) (s : state) :
  run N W (sched ++ sched') s = run N W sched s ≫= run N W sched'.
Proof.
  revert s. induction sched as [|t sched IH]; intros s; [done|]. simpl.
  destruct (step N W t s) as [s1|]; [apply IH | done].
Qed.

(** X10.  With no worker ([W = 0]) the harness does not hang: from every
    state of a run the end can be reached and no run has more than
    [4 N + 5] steps; when [main] prints, it has collected nothing and
    prints [0] whatever [N] is, and the [N] messages are still on the work
    queue, none of them taken. *)
Theorem fanout_no_worker (N : Z) (sched : list task) (s : state) :
  0 ≤ N → run N 0 sched init = Some s →
  (∃ sched' s', run N 0 sched' s = Some s' ∧ main s' = Done 0)
  ∧ Z.of_nat (length sched) ≤ 4 * N + 5
  ∧ (∀ total, main s = Done total →
       total = 0
       ∧ last (trace s) = Some (EvPrint 0)
       ∧ puts (trace s) = seqZ 0 N
       ∧ collects (trace s) = []
       ∧ work_queue s = seqZ 0 N ∧ workers s = []
       ∧ taken (trace s) = []).
Proof.
  intros HN Hrun.
  assert (∀ s1 sched1 total,
            run N 0 sched1 init = Some s1 → main s1 = Done total →
            total = 0
            ∧ last (trace s1) = Some (EvPrint 0)
            ∧ puts (trace s1) = seqZ 0 N
            ∧ collects (trace s1) = []
            ∧ work_queue s1 = seqZ 0 N ∧ workers s1 = []
            ∧ taken (trace s1) = []) as Hend.
  { intros s1 sched1 total Hrun1 Hm.
    pose proof (reachable_taken N 0 HN ltac:(lia) _ _ Hrun1) as Htk.
    destruct (reachable_inv N 0 HN ltac:(lia) _ _ Hrun1)
      as [Hsp _ _ (ns & Hwork & Hns) _ Hdone].
    destruct (reachable_tinv N 0 HN ltac:(lia) _ _ Hrun1)
      as [Hputs [Hcs Hcl] _ _ Hshape].
    unfold taken_in_order, consumed, shape in *. rewrite Hm in *. simpl in *.
    assert (workers s1 = []) as Hws by (apply nil_length_inv; lia).
    rewrite Hws in *. unfold sum_with in *. simpl in *.
    assert (done_queue s1 = []) as Hd by (apply nil_length_inv; lia).
    assert (collects (trace s1) = []) as Hc by (apply nil_length_inv; lia).
    rewrite Hd, Hc in *. change (sum []) with 0 in *. subst total.
    assert (ns = 0%nat) as -> by lia. simpl in *.
    rewrite app_nil_r in *. rewrite Hwork, Htk.
    destruct Hshape as (mid & Htr & _).
    split; [done|]. split.
    { rewrite Htr.
      change [EvGather; EvClockStop; EvPrint 0]
        with ([EvGather; EvClockStop] ++ [EvPrint 0]).
      change (EvClockStart :: ?l) with ([EvClockStart] ++ l).
      rewrite !app_assoc. apply last_snoc. }
    repeat split; try done. f_equal. lia. }
  pose proof (reachable_inv N 0 HN ltac:(lia) _ _ Hrun) as Hinv.
  split; [|split].
  - destruct (completes N 0 HN ltac:(lia) s Hinv)
      as (sched' & s' & Hrun' & total & Hm).
    exists sched', s'. split; [done|].
    assert (run N 0 (sched ++ sched') init = Some s') as Hall.
    { rewrite run_app, Hrun. done. }
    by destruct (Hend s' _ total Hall Hm) as (-> & _).
  - pose proof (run_left N 0 HN ltac:(lia) _ _ _ Hrun) as Hlen.
    pose proof (steps_left_nonneg N 0 HN ltac:(lia) s).
    unfold steps_left in Hlen at 2. simpl in Hlen. lia.
  - intros total Hm. by eapply Hend.
Qed.

Lemma fanout_no_worker_witness :
  0 ≤ 3
  ∧ run 3 0 [Main; Main; Main; Main; Main; Main; Main; Main] init
    = Some (State [0; 1; 2] [] [] (Done 0)
              [ EvClockStart; EvPut 0; EvPut 1; EvPut 2;
                EvGather; EvClockStop; EvPrint 0 ])
  ∧ [0; 1; 2] = seqZ 0 3.
Proof.
  split; [lia|]. split; [reflexivity|].
  refine (proj1 (proj2 (proj2 (proj2 (proj2 (proj2 (proj2 (fanout_no_worker 3
    [Main; Main; Main; Main; Main; Main; Main; Main]
    (State [0; 1; 2] [] [] (Done 0)
       [ EvClockStart; EvPut 0; EvPut 1; EvPut 2;
         EvGather; EvClockStop; EvPrint 0 ])
    ltac:(lia) eq_refl)) 0 eq_refl)))))).
Defined.

End FanoutFacts.

(** ** Primes *)

Module PrimesFacts.
Import Primes.

Lemma elem_of_range (start stop step i : Z) :
  0 < step →
  i ∈ range start stop step ↔ ∃ k, 0 ≤ k ∧ i = start + k * step ∧ i < stop.
Proof.
  intros Hstep. unfold range. rewrite list_elem_of_fmap.
  setoid_rewrite elem_of_seqZ. split.
  - intros (k & -> & Hk). exists k. split; [lia|]. split; [done|].
    destruct (decide (start + k * step < stop)) as [|Hge]; [done|]. exfalso.
    assert ((stop - start + step - 1) / step < k + 1); [|lia].
    apply Z.div_lt_upper_bound; nia.
  - intros (k & Hk & -> & Hlt). exists k. split; [done|]. split; [lia|].
    assert (k + 1 ≤ (stop - start + step - 1) / step); [|lia].
    apply Z.div_le_lower_bound; nia.
Qed.

Lemma range_step_one (start stop : Z) :
  range start stop 1 = seqZ start (stop - start).
Proof.
  unfold range. replace ((stop - start + 1 - 1) / 1) with (stop - start)
    by (rewrite Z.div_1_r; lia).
  trans (Z.add start <$> seqZ 0 (stop - start)).
  - apply list_fmap_ext. intros _ k _. lia.
  - rewrite fmap_add_seqZ. f_equal. lia.
Qed.

(** The loop of [is_prime]: no odd number from three to the square root
    divides [n]. *)
Lemma trial_division (int_sqrt : Z → Z) (n : Z) :
  forallb (λ i, negb (bool_decide (n `mod` i = 0))) (range 3 (int_sqrt n + 1) 2)
  = true
  ↔ ∀ k, 0 ≤ k → 3 + 2 * k ≤ int_sqrt n → ¬ (3 + 2 * k | n).
Proof.
  rewrite forallb_forall. split.
  - intros Hall k Hk Hle Hdiv.
    assert (3 + k * 2 ∈ range 3 (int_sqrt n + 1) 2) as Hin.
    { apply elem_of_range; [lia|]. exists k. lia. }
    apply list_elem_of_In, Hall in Hin.
    apply negb_true_iff, bool_decide_eq_false in Hin. apply Hin.
    apply Z.mod_divide; [lia|]. by replace (3 + k * 2) with (3 + 2 * k) by lia.
  - intros Hno i Hin. apply list_elem_of_In, elem_of_range in Hin; [|lia].
    destruct Hin as (k & Hk & -> & Hlt).
    apply negb_true_iff, bool_decide_eq_false. intros Hmod.
    apply (Hno k Hk); [lia|].
    replace (3 + 2 * k) with (3 + k * 2) by lia.
    apply Z.mod_divide; [lia | done].
Qed.

Lemma is_prime_sound (int_sqrt : Z → Z) (n : Z) :
  (3 ≤ n → is_sqrt n (int_sqrt n)) →
  is_prime int_sqrt n = true → Z.prime n.
Proof.
  intros Hsqrt. unfold is_prime. repeat case_decide; try done.
  - intros _. subst n. split; [lia|]. intros d Hd. lia.
  - intros Hloop. destruct (Hsqrt ltac:(lia)) as (Hr0 & Hr1 & Hr2).
    rewrite trial_division in Hloop.
    split; [lia|]. intros d Hd [e He].
    assert (1 < e < n) as Hrange by nia.
    (* the smaller of the two factors is odd and at most the square root *)
    assert (∃ m, 1 < m ∧ m * m ≤ n ∧ (m | n)) as (m & Hm1 & Hm2 & Hm3).
    { destruct (decide (d ≤ e)).
      - exists d. repeat split; [lia | nia | by exists e].
      - exists e. repeat split; [lia | nia |]. exists d. lia. }
    assert (m ≤ int_sqrt n) as Hle by nia.
    assert (m `mod` 2 = 1) as Hodd.
    { pose proof (Z.mod_pos_bound m 2 ltac:(lia)).
      destruct (decide (m `mod` 2 = 0)) as [Hev|]; [|lia]. exfalso.
      apply Z.mod_divide in Hev; [|lia].
      match goal with H : n `mod` 2 ≠ 0 |- _ => apply H end.
      apply Z.mod_divide; [lia|]. by etrans. }
    pose proof (Z.div_mod m 2 ltac:(lia)) as Hdm. rewrite Hodd in Hdm.
    apply (Hloop (m / 2 - 1)); [lia | lia |].
    by replace (3 + 2 * (m / 2 - 1)) with m by lia.
Qed.

Lemma is_prime_complete (int_sqrt : Z → Z) (n : Z) :
  (3 ≤ n → is_sqrt n (int_sqrt n)) →
  Z.prime n → is_prime int_sqrt n = true.
Proof.
  intros Hsqrt [Hn Hno]. unfold is_prime. repeat case_decide; try done; try lia.
  - exfalso. apply (Hno 2); [lia|]. by apply Z.mod_divide.
  - destruct (Hsqrt ltac:(lia)) as (Hr0 & Hr1 & Hr2).
    apply trial_division. intros k Hk Hle. apply Hno. nia.
Qed.

Lemma is_prime_spec (int_sqrt : Z → Z) (n : Z) :
  (3 ≤ n → is_sqrt n (int_sqrt n)) →
  is_prime int_sqrt n = true ↔ prime n.
Proof.
  intros Hsqrt. rewrite <- prime_alt.
  split; [by apply is_prime_sound | by apply is_prime_complete].
Qed.

Lemma count_loop (f : Z → bool) (l : list Z) (c : Z) :
  foldl (λ count n, if f n then count + 1 else count) c l
  = c + Z.of_nat (length (filter (λ n, f n = true) l)).
Proof.
  revert c. induction l as [|n l IH]; intros c; simpl; [lia|].
  rewrite IH, filter_cons. destruct (f n); case_decide; try done; simpl; lia.
Qed.

Lemma filter_ext_in {A} (P Q : A → Prop) `{∀ x, Decision (P x)}
    `{∀ x, Decision (Q x)} (l : list A) :
  (∀ x, x ∈ l → P x ↔ Q x) → filter P l = filter Q l.
Proof.
  induction l as [|x l IH]; intros Hpq; [done|].
  rewrite !filter_cons.
  rewrite IH by (intros y Hy; apply Hpq; by right).
  pose proof (Hpq x ltac:(by left)).
  repeat case_decide; done || tauto.
Qed.

Lemma sqrt_is_sqrt (n : Z) : 0 ≤ n → is_sqrt n (Z.sqrt n).
Proof.
  intros Hn. pose proof (Z.sqrt_spec n Hn) as Hs. pose proof (Z.sqrt_nonneg n).
  unfold is_sqrt. simpl in Hs. lia.
Qed.

Example is_prime_97 : is_prime Z.sqrt 97 = true.
Proof. reflexivity. Qed.

Example is_prime_91 : is_prime Z.sqrt 91 = false.
Proof. reflexivity. Qed.

Example count_primes_10k : count_primes Z.sqrt 10000 = 1229.
Proof. by vm_compute. Qed.

(** X17.  [is_prime] decides primality: provided [int(math.sqrt(n))] is
    the integer square root of [n] (needed from [n = 3] on only), it
    returns [True] exactly on the prime numbers; on [n < 2], the negative
    numbers included, it returns [False]. *)
Theorem is_prime_correct (int_sqrt : Z → Z) (n : Z) :
  (3 ≤ n → is_sqrt n (int_sqrt n)) →
  (is_prime int_sqrt n = true ↔ prime n)
  ∧ (n < 2 → is_prime int_sqrt n = false).
Proof.
  intros Hsqrt. split; [by apply is_prime_spec|].
  intros Hn. unfold is_prime. by case_decide.
Qed.

Lemma is_prime_correct_witness :
  (3 ≤ 97 → is_sqrt 97 (Z.sqrt 97)) ∧ prime 97.
Proof.
  assert (3 ≤ 97 → is_sqrt 97 (Z.sqrt 97)) as Hs.
  { intros _. by vm_compute. }
  split; [exact Hs|].
  exact (proj1 (proj1 (is_prime_correct Z.sqrt 97 Hs)) eq_refl).
Defined.

(** X18.  [count_primes limit] is the number of primes among
    [2 .. limit], provided [int(math.sqrt(n))] is the integer square root
    on that range; it is [0] when [limit < 2]. *)
Theorem count_primes_correct (int_sqrt : Z → Z) (limit : Z) :
  (∀ n, 3 ≤ n ≤ limit → is_sqrt n (int_sqrt n)) →
  count_primes int_sqrt limit
  = Z.of_nat (length (filter prime (seqZ 2 (limit - 1))))
  ∧ (limit < 2 → count_primes int_sqrt limit = 0).
Proof.
  intros Hsqrt.
  assert (count_primes int_sqrt limit
          = Z.of_nat (length (filter prime (seqZ 2 (limit - 1))))) as Heq.
  { unfold count_primes. rewrite count_loop, range_step_one.
    replace (limit + 1 - 2) with (limit - 1) by lia.
    rewrite Z.add_0_l. do 2 f_equal.
    apply filter_ext_in. intros n Hn. apply elem_of_seqZ in Hn.
    apply is_prime_spec. intros H3. apply Hsqrt. lia. }
  split; [done|]. intros Hl. rewrite Heq, seqZ_nil by lia. done.
Qed.

Lemma count_primes_correct_witness :
  (∀ n, 3 ≤ n ≤ 30 → is_sqrt n (Z.sqrt n))
  ∧ count_primes Z.sqrt 30
    = Z.of_nat (length (filter prime (seqZ 2 (30 - 1)))).
Proof.
  assert (∀ n, 3 ≤ n ≤ 30 → is_sqrt n (Z.sqrt n)) as Hs.
  { intros n Hn. apply sqrt_is_sqrt. lia. }
  split; [exact Hs|].
  exact (proj1 (count_primes_correct Z.sqrt 30 Hs)).
Defined.

End PrimesFacts.

(** ** Collections *)

Module CollectionsFacts.
Import Fibonacci Collections.

Lemma fold_sum_sum (xs : list Z) : fold_sum xs = sum xs.
Proof.
  unfold fold_sum.
  assert (∀ a, foldl (λ acc x, acc + x) a xs = a + sum xs) as H; [|by rewrite H].
  induction xs as [|x xs IH]; intros a.
  - unfold sum. simpl. lia.
  - cbn [foldl]. rewrite IH, sum_cons. lia.
Qed.

(** Halving, one number further. *)
Lemma half_next (k : Z) :
  0 ≤ k →
  if decide (k `mod` 2 = 0)
  then (k + 2) / 2 = (k + 1) / 2 + 1 ∧ k = 2 * ((k + 1) / 2)
  else (k + 2) / 2 = (k + 1) / 2.
Proof.
  intros Hk. pose proof (Z.div_mod k 2 ltac:(lia)) as Hdm.
  pose proof (Z.mod_pos_bound k 2 ltac:(lia)) as Hb.
  set (q := k / 2) in *. set (r := k `mod` 2) in *.
  case_decide as Hr.
  - rewrite Hr in Hdm.
    assert ((k + 1) / 2 = q) as ->
      by (symmetry; apply (Z.div_unique (k + 1) 2 q 1); lia).
    assert ((k + 2) / 2 = q + 1) as ->
      by (symmetry; apply (Z.div_unique (k + 2) 2 (q + 1) 0); lia).
    lia.
  - assert (r = 1) as Hr1 by lia. rewrite Hr1 in Hdm.
    assert ((k + 1) / 2 = q + 1) as ->
      by (symmetry; apply (Z.div_unique (k + 1) 2 (q + 1) 0); lia).
    symmetry. apply (Z.div_unique (k + 2) 2 (q + 1) 1); lia.
Qed.

(** The even numbers below [n], in order. *)
Lemma evens_below (n : nat) :
  filter (λ x, x `mod` 2 = 0) (seqZ 0 (Z.of_nat n))
  = (λ k, 2 * k) <$> seqZ 0 ((Z.of_nat n + 1) / 2).
Proof.
  induction n as [|n IH]; [done|].
  rewrite seqZ_S, filter_app, IH. simpl.
  replace (Z.of_nat (S n) + 1) with (Z.of_nat n + 2) by lia.
  pose proof (half_next (Z.of_nat n) ltac:(lia)) as Hh.
  rewrite filter_cons, filter_nil.
  assert (0 ≤ (Z.of_nat n + 1) / 2) by (apply Z.div_pos; lia).
  repeat case_decide; try done.
  - destruct Hh as [-> Hn]. rewrite seqZ_snoc, fmap_app by lia. simpl.
    do 2 f_equal. lia.
  - rewrite Hh. by rewrite app_nil_r.
Qed.

Lemma tripled_evens (xs : list Z) :
  filter (λ x, x `mod` 2 = 0) ((λ x, x * 3) <$> xs)
  = (λ x, x * 3) <$> filter (λ x, x `mod` 2 = 0) xs.
Proof.
  induction xs as [|x xs IH]; [done|].
  rewrite fmap_cons, !filter_cons, IH.
  assert ((x * 3) `mod` 2 = 0 ↔ x `mod` 2 = 0) as Hiff.
  { replace (x * 3) with (x + x * 2) by lia. by rewrite Z.mod_add by lia. }
  repeat case_decide; first [done | exfalso; tauto].
Qed.

(** Twice the sum of [c * 0, c * 1, ..., c * (n - 1)]. *)
Lemma sum_multiples (c : Z) (n : nat) :
  2 * sum ((λ k, c * k) <$> seqZ 0 (Z.of_nat n))
  = c * Z.of_nat n * (Z.of_nat n - 1).
Proof.
  induction n as [|n IH].
  { rewrite seqZ_nil by lia. change (sum _) with 0. lia. }
  rewrite seqZ_S, fmap_app.
  change ((λ k, c * k) <$> [0 + Z.of_nat n]) with [c * (0 + Z.of_nat n)].
  rewrite sum_snoc. lia.
Qed.

Lemma filtered_evens (N : Z) :
  0 ≤ N → filtered N = (λ k, 2 * k) <$> seqZ 0 ((N + 1) / 2).
Proof.
  intros HN. unfold filtered, data. pose proof (evens_below (Z.to_nat N)) as He.
  by replace (Z.of_nat (Z.to_nat N)) with N in He by lia.
Qed.

Lemma half_nonneg (N : Z) : 0 ≤ N → 0 ≤ (N + 1) / 2.
Proof. intros. apply Z.div_pos; lia. Qed.

Lemma filtered_length (N : Z) :
  0 ≤ N → Z.of_nat (length (filtered N)) = (N + 1) / 2.
Proof.
  intros HN. pose proof (half_nonneg N HN).
  rewrite filtered_evens, length_fmap, length_seqZ by done. lia.
Qed.

Lemma total_closed (N : Z) : 0 ≤ N → total N = N * (N - 1) / 2.
Proof.
  intros HN. unfold total, data. rewrite fold_sum_sum.
  pose proof (sum_multiples 1 (Z.to_nat N)) as Hs.
  replace (Z.of_nat (Z.to_nat N)) with N in Hs by lia.
  assert ((λ k, 1 * k) <$> seqZ 0 N = seqZ 0 N) as Hid.
  { rewrite <- (list_fmap_id (seqZ 0 N)) at 2.
    apply list_fmap_ext. intros _ k _. simpl. lia. }
  rewrite Hid in Hs.
  replace (N * (N - 1)) with (sum (seqZ 0 N) * 2) by lia.
  by rewrite Z.div_mul by lia.
Qed.

Lemma chain_closed (N : Z) :
  0 ≤ N → chain N = 3 * ((N + 1) / 2) * ((N + 1) / 2 - 1).
Proof.
  intros HN. pose proof (half_nonneg N HN). unfold chain.
  rewrite fold_sum_sum, tripled_evens.
  fold (filtered N). rewrite filtered_evens by done.
  rewrite <- list_fmap_compose.
  pose proof (sum_multiples 6 (Z.to_nat ((N + 1) / 2))) as Hs.
  replace (Z.of_nat (Z.to_nat ((N + 1) / 2))) with ((N + 1) / 2) in Hs by lia.
  assert ((λ x, x * 3) ∘ (λ k, 2 * k) <$> seqZ 0 ((N + 1) / 2)
          = (λ k, 6 * k) <$> seqZ 0 ((N + 1) / 2)) as ->.
  { apply list_fmap_ext. intros _ k _. simpl. lia. }
  lia.
Qed.

Example main_5 :
  out (exec (main (λ k, 1500000 * Z.of_nat k) 5) (World 0 []))
  = [ "BENCH:collections:build-100k:5:1"; "BENCH:collections:map-double:5:1";
      "BENCH:collections:filter-evens:3:1"; "BENCH:collections:fold-sum:10:1";
      "BENCH:collections:chain:18:1" ].
Proof. reflexivity. Qed.

(** X19.  The lists of the benchmark, for every [NUM_ELEMENTS >= 0]:
    [mapped] doubles [data] element by element, and [filtered] is the even
    numbers below [NUM_ELEMENTS] in increasing order, [(N + 1) // 2] of
    them. *)
Theorem collections_lists (N : Z) :
  0 ≤ N →
  Z.of_nat (length (data N)) = N
  ∧ Z.of_nat (length (mapped N)) = N
  ∧ (∀ (i : nat) x, mapped N !! i = Some x ↔ Z.of_nat i < N ∧ x = 2 * Z.of_nat i)
  ∧ filtered N = (λ k, 2 * k) <$> seqZ 0 ((N + 1) / 2)
  ∧ Z.of_nat (length (filtered N)) = (N + 1) / 2.
Proof.
  intros HN.
  split; [|split; [|split; [|split; [by apply filtered_evens
                                    | by apply filtered_length]]]].
  - unfold data. rewrite length_seqZ. lia.
  - unfold mapped, data. rewrite length_fmap, length_seqZ. lia.
  - intros i x. unfold mapped, data. rewrite list_lookup_fmap. split.
    + intros Hi. destruct (seqZ 0 N !! i) as [y|] eqn:Hy; [|done].
      apply lookup_seqZ in Hy. simpl in Hi. injection Hi as <-. lia.
    + intros [Hi ->]. rewrite lookup_seqZ_lt by lia. simpl. f_equal. lia.
Qed.

Lemma collections_lists_witness :
  0 ≤ 5 ∧ filtered 5 = (λ k, 2 * k) <$> seqZ 0 ((5 + 1) / 2).
Proof.
  split; [lia|].
  exact (proj1 (proj2 (proj2 (proj2 (collections_lists 5 ltac:(lia)))))).
Defined.

(** X20.  What [main] prints, for every [NUM_ELEMENTS >= 0] and whatever
    the clock: five lines, with the results [N], [N], [(N + 1) // 2],
    [N * (N - 1) / 2] for [fold-sum] and, for [chain], the sum of the even
    numbers among the tripled elements, [3 * h * (h - 1)] with
    [h = (N + 1) // 2]. *)
Theorem collections_main_output (perf_counter : nat → Z) (N : Z) (w : world) :
  0 ≤ N →
  let t := elapsed perf_counter in
  let k := reads w in
  let h := (N + 1) / 2 in
  out (exec (main perf_counter N) w)
  = out w ++
    [ line "build-100k" N (t k);
      line "map-double" N (t (2 + k)%nat);
      line "filter-evens" h (t (4 + k)%nat);
      line "fold-sum" (N * (N - 1) / 2) (t (6 + k)%nat);
      line "chain" (3 * h * (h - 1)) (t (8 + k)%nat) ].
Proof.
  intros HN t k h. subst t k h.
  unfold main, exec, bind, perf_counter_ns, print, elapsed. simpl.
  rewrite filtered_length, total_closed, chain_closed by done.
  unfold mapped, data. rewrite length_fmap, length_seqZ.
  replace (Z.of_nat (Z.to_nat N)) with N by lia.
  by rewrite <- !app_assoc.
Qed.

Lemma collections_main_output_witness :
  0 ≤ 1000
  ∧ out (exec (main (λ k, 1500000 * Z.of_nat k) 1000) (World 0 []))
    = [ "BENCH:collections:build-100k:1000:1";
        "BENCH:collections:map-double:1000:1";
        "BENCH:collections:filter-evens:500:1";
        "BENCH:collections:fold-sum:499500:1";
        "BENCH:collections:chain:748500:1" ].
Proof.
  split; [lia|].
  exact (collections_main_output (λ k, 1500000 * Z.of_nat k) 1000 (World 0 [])
           ltac:(lia)).
Defined.

End CollectionsFacts.
